(** * cf-worker-aelia: the edge-cache worker of src/index.js

    A shallow embedding of the worker (cookie parser, bypass classifier,
    cache-key builder and request dispatcher) together with the platform
    functions it calls (String.prototype.split/trim/startsWith/endsWith,
    decodeURIComponent, encodeURIComponent, URL, URLSearchParams, Headers,
    Response), followed by the properties of the specification.

    JavaScript strings are sequences of UTF-16 code units; they are modelled
    as [list N].  A JavaScript exception is the [Throw] case of [result].
    The async handler is the tree of its operations: it is run on its own
    against a store and an origin, and together with other requests in a
    world where handlers interleave at their awaits. *)

From Stdlib Require Import NArith Ascii String.
From stdpp Require Import gmap list pretty.

Local Open Scope N_scope.

(** ** Strings and exceptions *)

Abbreviation jsstring := (list N).

(** A string literal of the source, as code units. *)
Definition js (s : string) : jsstring :=
  N_of_ascii <$> list_ascii_of_string s.

(** The exceptions that occur: URIError from the URI functions, TypeError
    from the URL constructor and from a fetch that fails. *)
Inductive exn := URIError | TypeError.

Inductive result (A : Type) : Type :=
| Ok (a : A)
| Throw (e : exn).
Arguments Ok {A} a.
Arguments Throw {A} e.

(** Sequencing: the first exception thrown ends the computation.  With
    these instances [x ← r; k] reads "let x be the value of r, then k". *)
#[global] Instance result_ret : MRet result := λ A a, Ok a.
#[global] Instance result_bind : MBind result := λ A B k r,
  match r with
  | Ok a => k a
  | Throw e => Throw e
  end.

#[global] Instance exn_eq_dec : EqDecision exn.
Proof. solve_decision. Defined.

(** ToBoolean of a string: the empty string is falsy. *)
Definition truthy (s : jsstring) : bool :=
  match s with
  | [] => false
  | _ :: _ => true
  end.

(** [s === t] of the source, on strings. *)
Definition str_eqb (s t : jsstring) : bool := bool_decide (s = t).

(** String.prototype.startsWith(searchString), position 0. *)
Fixpoint startsWith (s searchString : jsstring) {struct searchString}
    : bool :=
  match searchString, s with
  | [], _ => true
  | _ :: _, [] => false
  | p :: ps, c :: cs => (c =? p) && startsWith cs ps
  end.

(** String.prototype.endsWith(searchString), end position = length. *)
Definition endsWith (s searchString : jsstring) : bool :=
  startsWith (reverse s) (reverse searchString).

(** String.prototype.split(separator) for a one-code-unit separator and no
    limit: the substrings between the occurrences, in order; the empty
    string gives one empty substring. *)
Fixpoint split (sep : N) (s : jsstring) : list jsstring :=
  match s with
  | [] => [[]]
  | c :: rest =>
      if c =? sep then [] :: split sep rest
      else match split sep rest with
           | [] => [[c]]
           | w :: ws => (c :: w) :: ws
           end
  end.

(** Array.prototype.join(separator). *)
Fixpoint join (sep : jsstring) (parts : list jsstring) : jsstring :=
  match parts with
  | [] => []
  | [p] => p
  | p :: ps => p ++ sep ++ join sep ps
  end.

(** WhiteSpace and LineTerminator code points of ECMAScript, the ones
    String.prototype.trim strips. *)
Definition isWhiteSpace (c : N) : bool :=
  ((9 <=? c) && (c <=? 13)) || (c =? 32) || (c =? 160) || (c =? 5760)
  || ((8192 <=? c) && (c <=? 8202)) || (c =? 8232) || (c =? 8233)
  || (c =? 8239) || (c =? 8287) || (c =? 12288) || (c =? 65279).

Fixpoint trimStart (s : jsstring) : jsstring :=
  match s with
  | [] => []
  | c :: rest => if isWhiteSpace c then trimStart rest else s
  end.

Definition trimEnd (s : jsstring) : jsstring :=
  reverse (trimStart (reverse s)).

Definition trim (s : jsstring) : jsstring := trimEnd (trimStart s).

(** ** Hexadecimal digits and UTF-8/UTF-16 conversions *)

Definition hexValue (c : N) : option N :=
  if (48 <=? c) && (c <=? 57) then Some (c - 48)
  else if (65 <=? c) && (c <=? 70) then Some (c - 55)
  else if (97 <=? c) && (c <=? 102) then Some (c - 87)
  else None.

Definition hexOctet (h l : N) : option N :=
  match hexValue h, hexValue l with
  | Some a, Some b => Some (16 * a + b)
  | _, _ => None
  end.

(** Upper-case hexadecimal digit of a value below 16. *)
Definition hexDigit (v : N) : N := if v <? 10 then 48 + v else 55 + v.

(** "%XX" for an octet. *)
Definition percentOctet (b : N) : jsstring :=
  [37; hexDigit (b / 16); hexDigit (b mod 16)].

Definition isContinuation (b : N) : bool := (128 <=? b) && (b <=? 191).

(** UTF16EncodeCodePoint. *)
Definition utf16 (cp : N) : jsstring :=
  if cp <? 65536 then [cp]
  else [55296 + (cp - 65536) / 1024; 56320 + (cp - 65536) mod 1024].

(** The UTF-8 octets of a code point. *)
Definition utf8 (cp : N) : list N :=
  if cp <? 128 then [cp]
  else if cp <? 2048 then [192 + cp / 64; 128 + cp mod 64]
  else if cp <? 65536 then
    [224 + cp / 4096; 128 + (cp / 64) mod 64; 128 + cp mod 64]
  else [240 + cp / 262144; 128 + (cp / 4096) mod 64;
        128 + (cp / 64) mod 64; 128 + cp mod 64].

Definition isHighSurrogate (c : N) : bool := (55296 <=? c) && (c <=? 56319).
Definition isLowSurrogate (c : N) : bool := (56320 <=? c) && (c <=? 57343).

(** ** decodeURIComponent

    ECMAScript's Decode with an empty preserved set.  The scan first turns
    the string into literal code units and escaped octets ([unescape]): a
    '%' not followed by two hexadecimal digits is a URIError.  The octets
    are then read as UTF-8 ([decodeItems]): an octet below 0x80 is one code
    unit; a lead octet must be followed by its escaped continuation octets
    and form a valid UTF-8 encoding, anything else is a URIError. *)

Inductive item :=
| Lit (c : N)
| Octet (b : N).

Fixpoint unescape (s : jsstring) : result (list item) :=
  match s with
  | [] => Ok []
  | c :: rest =>
      if c =? 37 then
        match rest with
        | h :: l :: rest' =>
            match hexOctet h l with
            | Some b => items ← unescape rest'; Ok (Octet b :: items)
            | None => Throw URIError
            end
        | _ => Throw URIError
        end
      else items ← unescape rest; Ok (Lit c :: items)
  end.

Fixpoint decodeItems (items : list item) : result jsstring :=
  match items with
  | [] => Ok []
  | Lit c :: rest => r ← decodeItems rest; Ok (c :: r)
  | Octet b :: rest =>
      if b <? 128 then r ← decodeItems rest; Ok (b :: r)
      else if (194 <=? b) && (b <=? 223) then
        match rest with
        | Octet b1 :: rest' =>
            if isContinuation b1 then
              r ← decodeItems rest';
              Ok (utf16 ((b - 192) * 64 + (b1 - 128)) ++ r)
            else Throw URIError
        | _ => Throw URIError
        end
      else if (224 <=? b) && (b <=? 239) then
        match rest with
        | Octet b1 :: Octet b2 :: rest' =>
            let cp := (b - 224) * 4096 + (b1 - 128) * 64 + (b2 - 128) in
            if isContinuation b1 && isContinuation b2 && (2048 <=? cp)
               && negb ((55296 <=? cp) && (cp <=? 57343)) then
              r ← decodeItems rest'; Ok (utf16 cp ++ r)
            else Throw URIError
        | _ => Throw URIError
        end
      else if (240 <=? b) && (b <=? 244) then
        match rest with
        | Octet b1 :: Octet b2 :: Octet b3 :: rest' =>
            let cp := (b - 240) * 262144 + (b1 - 128) * 4096
                      + (b2 - 128) * 64 + (b3 - 128) in
            if isContinuation b1 && isContinuation b2 && isContinuation b3
               && (65536 <=? cp) && (cp <=? 1114111) then
              r ← decodeItems rest'; Ok (utf16 cp ++ r)
            else Throw URIError
        | _ => Throw URIError
        end
      else Throw URIError
  end.

Definition decodeURIComponent (s : jsstring) : result jsstring :=
  items ← unescape s; decodeItems items.

(** ** The worker's constants (src/index.js, lines 1-15) *)

Definition WOOCOMMERCE_BYPASS_COOKIES : list jsstring :=
  [ js "woocommerce_cart_hash";
    js "woocommerce_items_in_cart";
    js "wp_woocommerce_session_" ].

Definition AELIA_CACHE_COOKIES : list jsstring :=
  [ js "aelia_cs_selected_currency";
    js "aelia_customer_country" ].

Definition CACHE_TTL : N := 86400.

(** ** The cookie jar and parseCookies (src/index.js, lines 115-127)

    The jar is the object [cookies = {}] used as a map from names to
    values.  [cookies[name] = v] stores an own property, except for the name
    __proto__: that assignment reaches the accessor of Object.prototype,
    which ignores a value that is not an object, so nothing is stored. *)

Definition setProperty (cookies : gmap jsstring jsstring)
    (name value : jsstring) : gmap jsstring jsstring :=
  if str_eqb name (js "__proto__") then cookies else <[name := value]> cookies.

(** The body of the forEach callback: [const [name, value] =
    cookie.trim().split('=')] takes the first two pieces of the split
    ([value] is undefined when there is one piece only); the cookie is
    stored when both are truthy, that is non-empty strings. *)
Definition parseCookie (cookies : gmap jsstring jsstring)
    (cookie : jsstring) : result (gmap jsstring jsstring) :=
  let pieces := split 61 (trim cookie) in
  match pieces !! 0%nat, pieces !! 1%nat with
  | Some name, Some value =>
      if truthy name && truthy value then
        v ← decodeURIComponent value;
        Ok (setProperty cookies name v)
      else Ok cookies
  | _, _ => Ok cookies
  end.

Fixpoint forEachCookie (cookies : gmap jsstring jsstring)
    (fragments : list jsstring) : result (gmap jsstring jsstring) :=
  match fragments with
  | [] => Ok cookies
  | cookie :: rest =>
      cookies' ← parseCookie cookies cookie;
      forEachCookie cookies' rest
  end.

Definition parseCookies (cookieHeader : jsstring)
    : result (gmap jsstring jsstring) :=
  match cookieHeader with
  | [] => Ok ∅
  | _ => forEachCookie ∅ (split 59 cookieHeader)
  end.

(** ** shouldBypassCache (src/index.js, lines 129-141)

    [Object.keys] gives the jar's own property names.  Their order plays no
    part in [Array.prototype.some], which is [existsb]. *)

Definition Object_keys (cookies : gmap jsstring jsstring) : list jsstring :=
  (map_to_list cookies).*1.

Definition shouldBypassCache (cookies : gmap jsstring jsstring) : bool :=
  let cookieNames := Object_keys cookies in
  existsb (λ pattern,
    existsb (λ cookieName,
      if endsWith pattern (js "_") then startsWith cookieName pattern
      else str_eqb cookieName pattern) cookieNames)
    WOOCOMMERCE_BYPASS_COOKIES.

(** ** encodeURIComponent

    ECMAScript's Encode: the unreserved characters are kept, every other
    code point is written as the percent-escapes of its UTF-8 octets, and
    an unpaired surrogate is a URIError. *)

Definition isAlphaNumeric (c : N) : bool :=
  ((48 <=? c) && (c <=? 57)) || ((65 <=? c) && (c <=? 90))
  || ((97 <=? c) && (c <=? 122)).

(** A-Z a-z 0-9 - _ . ! ~ * ' ( ) *)
Definition isUnescaped (c : N) : bool :=
  isAlphaNumeric c || (c =? 45) || (c =? 95) || (c =? 46) || (c =? 33)
  || (c =? 126) || (c =? 42) || (c =? 39) || (c =? 40) || (c =? 41).

Definition surrogatePair (hi lo : N) : N :=
  (hi - 55296) * 1024 + (lo - 56320) + 65536.

Definition percentOctets (octets : list N) : jsstring :=
  octets ≫= percentOctet.

Fixpoint encodeURIComponent (s : jsstring) : result jsstring :=
  match s with
  | [] => Ok []
  | c :: rest =>
      if isUnescaped c then r ← encodeURIComponent rest; Ok (c :: r)
      else if isHighSurrogate c then
        match rest with
        | d :: rest' =>
            if isLowSurrogate d then
              r ← encodeURIComponent rest';
              Ok (percentOctets (utf8 (surrogatePair c d)) ++ r)
            else Throw URIError
        | [] => Throw URIError
        end
      else if isLowSurrogate c then Throw URIError
      else r ← encodeURIComponent rest; Ok (percentOctets (utf8 c) ++ r)
  end.

(** ** UTF-8 as the URL standard uses it

    The conversion of a string to scalar values (an unpaired surrogate
    becomes U+FFFD) and UTF-8 encode. *)

Fixpoint scalarValues (s : jsstring) : list N :=
  match s with
  | [] => []
  | c :: rest =>
      if isHighSurrogate c then
        match rest with
        | d :: rest' =>
            if isLowSurrogate d then surrogatePair c d :: scalarValues rest'
            else 65533 :: scalarValues rest
        | [] => [65533]
        end
      else if isLowSurrogate c then 65533 :: scalarValues rest
      else c :: scalarValues rest
  end.

Definition utf8Encode (s : jsstring) : list N := scalarValues s ≫= utf8.

(** ** application/x-www-form-urlencoded

    The parameters of a query are kept as the runtime keeps them: a name
    and a value are the octets that percent-decoding gives.  They are not
    read as text, so an escape that is not UTF-8 ("%FF") is written back as
    it came, and a name or value given as a string is stored as its UTF-8
    octets. *)

(** Percent-decode: a '%' that two hexadecimal digits do not follow stays. *)
Fixpoint percentDecode (octets : list N) : list N :=
  match octets with
  | [] => []
  | b :: rest =>
      if b =? 37 then
        match rest with
        | h :: l :: rest' =>
            match hexOctet h l with
            | Some o => o :: percentDecode rest'
            | None => b :: percentDecode rest
            end
        | _ => b :: percentDecode rest
        end
      else b :: percentDecode rest
  end.

(** The part before the first [sep] and, when there is one, the part
    after it. *)
Fixpoint splitFirst (sep : N) (s : list N) : list N * option (list N) :=
  match s with
  | [] => ([], None)
  | c :: rest =>
      if c =? sep then ([], Some rest)
      else let '(before, after) := splitFirst sep rest in (c :: before, after)
  end.

Definition plusToSpace (octets : list N) : list N :=
  (λ b, if b =? 43 then 32 else b) <$> octets.

Definition urlencodedDecode (octets : list N) : list N :=
  percentDecode (plusToSpace octets).

(** The urlencoded parser, on the octets of the query: the sequences
    between '&', each split at its first '=', empty sequences skipped. *)
Definition urlencodedParse (input : list N) : list (list N * list N) :=
  omap (λ sequence,
    match sequence with
    | [] => None
    | _ =>
        let '(name, value) := splitFirst 61 sequence in
        Some (urlencodedDecode name, urlencodedDecode (default [] value))
    end) (split 38 input).

(** The urlencoded byte serializer: space is '+', the octets of
    A-Z a-z 0-9 * - . _ stay, every other octet is percent-encoded. *)
Definition urlencodedByte (b : N) : jsstring :=
  if b =? 32 then [43]
  else if isAlphaNumeric b || (b =? 42) || (b =? 45) || (b =? 46)
          || (b =? 95) then [b]
  else percentOctet b.

Definition urlencodedOctets (octets : list N) : jsstring :=
  octets ≫= urlencodedByte.

(** The serialisation of a string: that of its UTF-8 octets. *)
Definition urlencodedString (s : jsstring) : jsstring :=
  urlencodedOctets (utf8Encode s).

Definition urlencodedSerialize (tuples : list (list N * list N))
    : jsstring :=
  join (js "&")
    ((λ '(name, value),
        urlencodedOctets name ++ js "=" ++ urlencodedOctets value)
     <$> tuples).

(** ** URL objects

    The URL record of the URL standard for an http or https URL: the host
    is kept as serialised (with its port, when it has one), the path as
    its serialisation.  [new_URL] parses such a URL from its serialisation,
    which is what [request.url] and [baseKey] are: scheme, "://", host, the
    path up to '?' or '#', the query up to '#', the fragment.  Any other
    input is outside this model and reported as TypeError. *)

Record URL := {
  url_scheme : jsstring;
  url_host : jsstring;
  url_path : jsstring;
  url_query : option jsstring;
  url_fragment : option jsstring
}.

(** The longest prefix without a code unit satisfying [stop], and the rest. *)
Fixpoint breakAt (stop : N → bool) (s : jsstring) : jsstring * jsstring :=
  match s with
  | [] => ([], [])
  | c :: rest =>
      if stop c then ([], s)
      else let '(before, after) := breakAt stop rest in (c :: before, after)
  end.

Definition parseQueryAndFragment (s : jsstring)
    : option jsstring * option jsstring :=
  let '(q, s') :=
    match s with
    | c :: rest =>
        if c =? 63 then
          let '(q, s') := breakAt (λ c, c =? 35) rest in (Some q, s')
        else (None, s)
    | [] => (None, s)
    end in
  match s' with
  | c :: f => if c =? 35 then (q, Some f) else (q, None)
  | [] => (q, None)
  end.

Definition new_URL (input : jsstring) : result URL :=
  let '(scheme, afterScheme) := breakAt (λ c, c =? 58) input in
  if negb (str_eqb scheme (js "http") || str_eqb scheme (js "https"))
  then Throw TypeError
  else if negb (startsWith afterScheme (js "://")) then Throw TypeError
  else
    let '(authority, afterHost) :=
      breakAt (λ c, (c =? 47) || (c =? 63) || (c =? 35))
        (drop 3 afterScheme) in
    if negb (truthy authority) || existsb (λ c, c =? 64) authority
    then Throw TypeError
    else
      let '(path, afterPath) :=
        breakAt (λ c, (c =? 63) || (c =? 35)) afterHost in
      let '(query, fragment) := parseQueryAndFragment afterPath in
      Ok {| url_scheme := scheme;
            url_host := authority;
            url_path := if truthy path then path else js "/";
            url_query := query;
            url_fragment := fragment |}.

(** The getters the worker reads. *)
Definition protocol (url : URL) : jsstring := url_scheme url ++ js ":".
Definition host (url : URL) : jsstring := url_host url.
Definition pathname (url : URL) : jsstring := url_path url.

(** [url.search]: empty when the query is null or empty, else '?' and the
    query. *)
Definition search (url : URL) : jsstring :=
  match url_query url with
  | None | Some [] => []
  | Some q => js "?" ++ q
  end.

(** [url.toString()], the URL serializer. *)
Definition toString (url : URL) : jsstring :=
  url_scheme url ++ js "://" ++ url_host url ++ url_path url
  ++ match url_query url with Some q => js "?" ++ q | None => [] end
  ++ match url_fragment url with Some f => js "#" ++ f | None => [] end.

(** [url.searchParams]: the list parsed from the query. *)
Definition searchParams (url : URL) : list (list N * list N) :=
  urlencodedParse (utf8Encode (default [] (url_query url))).

(** URLSearchParams.prototype.set on the list: the first pair named [name]
    takes the value and the other pairs of that name are removed; without
    such a pair, the new pair is appended. *)
Fixpoint URLSearchParams_set (tuples : list (list N * list N))
    (name value : list N) : list (list N * list N) :=
  match tuples with
  | [] => [(name, value)]
  | (n, v) :: rest =>
      if bool_decide (n = name)
      then (name, value) :: filter (λ p, p.1 ≠ name) rest
      else (n, v) :: URLSearchParams_set rest name value
  end.

(** [url.searchParams.set(name, value)]: the arguments are converted to
    scalar value strings and stored as their UTF-8 octets, the list is
    updated and serialised into the URL's query (null when the
    serialisation is empty). *)
Definition searchParams_set (url : URL) (name value : jsstring) : URL :=
  let tuples :=
    URLSearchParams_set (searchParams url)
      (utf8Encode name) (utf8Encode value) in
  let serialized := urlencodedSerialize tuples in
  {| url_scheme := url_scheme url;
     url_host := url_host url;
     url_path := url_path url;
     url_query := if truthy serialized then Some serialized else None;
     url_fragment := url_fragment url |}.

(** ** isShopOrProductPath and generateCacheKey
    (src/index.js, lines 143-162) *)

Definition isShopOrProductPath (pathname : jsstring) : bool :=
  startsWith pathname (js "/shop") || startsWith pathname (js "/product/").

(** [cookies[cookieName] || 'default']: the property's value when it is
    there and truthy. *)
Definition cookieOrDefault (cookies : gmap jsstring jsstring)
    (cookieName : jsstring) : jsstring :=
  match cookies !! cookieName with
  | Some v => if truthy v then v else js "default"
  | None => js "default"
  end.

Definition aeliaCookieValues (cookies : gmap jsstring jsstring) : jsstring :=
  join (js "&")
    ((λ cookieName, cookieName ++ js "=" ++ cookieOrDefault cookies cookieName)
     <$> AELIA_CACHE_COOKIES).

Definition baseKey (url : URL) : jsstring :=
  protocol url ++ js "//" ++ host url ++ pathname url ++ search url.

Definition generateCacheKey (url : URL) (cookies : gmap jsstring jsstring)
    : result jsstring :=
  if isShopOrProductPath (pathname url) then
    cacheKeyUrl ← new_URL (baseKey url);
    token ← encodeURIComponent (aeliaCookieValues cookies);
    Ok (toString (searchParams_set cacheKeyUrl (js "aelia_cache") token))
  else Ok (baseKey url).

(** ** Headers, Request and Response

    A header list keeps its entries in order.  Names are compared without
    regard to ASCII case.  The names and values the worker sets are header
    tokens and URL serialisations or literals, which [set] accepts. *)

Abbreviation Headers := (list (jsstring * jsstring)).

Definition asciiLower (c : N) : N :=
  if (65 <=? c) && (c <=? 90) then c + 32 else c.

Definition sameName (a b : jsstring) : bool :=
  str_eqb (asciiLower <$> a) (asciiLower <$> b).

(** Headers.prototype.get: the values of the entries of that name, joined
    with ", "; null without such an entry. *)
Definition Headers_get (headers : Headers) (name : jsstring)
    : option jsstring :=
  match filter (λ h, sameName h.1 name) headers with
  | [] => None
  | hs => Some (join (js ", ") hs.*2)
  end.

(** Headers.prototype.set: the first entry of that name takes the value and
    the others are removed; without such an entry, one is appended. *)
Fixpoint Headers_set (headers : Headers) (name value : jsstring) : Headers :=
  match headers with
  | [] => [(name, value)]
  | h :: rest =>
      if sameName h.1 name
      then (h.1, value) :: filter (λ h', ¬ sameName h'.1 name) rest
      else h :: Headers_set rest name value
  end.

(** [a || b] on a string that may be null. *)
Definition orElse (a : option jsstring) (b : jsstring) : jsstring :=
  match a with
  | Some v => if truthy v then v else b
  | None => b
  end.

Record Request := {
  method : jsstring;
  url : jsstring;
  request_headers : Headers
}.

(** A response: its body (null or its octets), status, status text and
    headers.  The responses that fetch and the cache hand out are valid
    Response objects, so constructing a copy of one succeeds. *)
Record Response := {
  body : option (list N);
  status : N;
  statusText : jsstring;
  headers : Headers
}.

Record ResponseInit := {
  init_status : N;
  init_statusText : jsstring;
  init_headers : Headers
}.

(** A Response passed as the init dictionary: its members of those names. *)
Definition asInit (response : Response) : ResponseInit :=
  {| init_status := status response;
     init_statusText := statusText response;
     init_headers := headers response |}.

(** [new Response(body, init)]; the headers are copied into a new list. *)
Definition new_Response (b : option (list N)) (init : ResponseInit)
    : Response :=
  {| body := b;
     status := init_status init;
     statusText := init_statusText init;
     headers := init_headers init |}.

(** [response.headers.set(name, value)] on a response the worker built. *)
Definition setHeader (response : Response) (name value : jsstring)
    : Response :=
  {| body := body response;
     status := status response;
     statusText := statusText response;
     headers := Headers_set (headers response) name value |}.

(** [response.ok] *)
Definition ok (response : Response) : bool :=
  (200 <=? status response) && (status response <=? 299).

(** The [cf] options of the fetch on a miss (lines 72-84). *)
Record CfOptions := {
  cacheEverything : bool;
  cacheTtl : N;
  cacheTtlByStatus : list (jsstring * N)
}.

Definition missOptions : CfOptions :=
  {| cacheEverything := true;
     cacheTtl := CACHE_TTL;
     cacheTtlByStatus :=
       [(js "200-299", CACHE_TTL); (js "404", 300); (js "500-599", 0)] |}.

(** ** The dispatcher (src/index.js, lines 17-113 and 164-167)

    [handleRequest] is an async function.  It runs up to an [await], where
    the platform takes over, and goes on when the platform resumes it with
    the answer; in between, other requests run and the cache may change.
    The function is embedded as the tree of its operations: [Await_fetch]
    is [await fetch(..)], [Await_match] is [await cache.match(..)], and
    [WaitUntil_put] is [ctx.waitUntil(cache.put(..))], which hands the put
    to the platform and goes on without waiting for it.  Console output is
    not part of the model. *)

Inductive prog (A : Type) : Type :=
| Return (r : result A)
| Await_fetch (request : Request) (cf : option CfOptions)
    (k : result Response → prog A)
| Await_match (key : jsstring) (k : option Response → prog A)
| WaitUntil_put (key : jsstring) (response : Response) (k : prog A).
Arguments Return {A} r.
Arguments Await_fetch {A} request cf k.
Arguments Await_match {A} key k.
Arguments WaitUntil_put {A} key response k.

(** Sequencing: an exception ends the function. *)
Fixpoint prog_bind {A B} (f : A → prog B) (p : prog A) : prog B :=
  match p with
  | Return (Ok a) => f a
  | Return (Throw e) => Return (Throw e)
  | Await_fetch request cf k =>
      Await_fetch request cf (λ answer, prog_bind f (k answer))
  | Await_match key k => Await_match key (λ found, prog_bind f (k found))
  | WaitUntil_put key response k => WaitUntil_put key response (prog_bind f k)
  end.

#[global] Instance prog_ret : MRet prog := λ A a, Return (Ok a).
#[global] Instance prog_mbind : MBind prog := λ A B f p, prog_bind f p.

(** A computation that needs no answer of the platform. *)
Definition pure {A} (r : result A) : prog A := Return r.

(** [await fetch(request, { cf })]: a fetch that fails throws. *)
Definition fetch (request : Request) (cf : option CfOptions) : prog Response :=
  Await_fetch request cf Return.

(** [await cache.match(key)]: the stored response, or undefined. *)
Definition cache_match (key : jsstring) : prog (option Response) :=
  Await_match key (λ found, Return (Ok found)).

(** [ctx.waitUntil(cache.put(key, response))] *)
Definition cache_put (key : jsstring) (response : Response) : prog unit :=
  WaitUntil_put key response (Return (Ok ())).

Definition fetchFromOrigin (request : Request) : prog Response :=
  fetch request None.

Definition handleRequest (request : Request) : prog Response :=
  url ← pure (new_URL (url request));
  cookies ← pure (parseCookies
                    (orElse (Headers_get (request_headers request)
                               (js "Cookie")) (js "")));
  if negb (str_eqb (method request) (js "GET")) then
    fetchFromOrigin request
  else if startsWith (pathname url) (js "/my-account") then
    fetchFromOrigin request
  else if shouldBypassCache cookies then
    fetchFromOrigin request
  else
    cacheKey ← pure (generateCacheKey url cookies);
    response ← cache_match cacheKey;
    match response with
    | Some response =>
        let newResponse := new_Response (body response) (asInit response) in
        let newResponse :=
          setHeader newResponse (js "CF-Cache-Status") (js "HIT") in
        let newResponse :=
          setHeader newResponse (js "X-Cache-Key") cacheKey in
        mret newResponse
    | None =>
        response ← fetch request (Some missOptions);
        let responseToCache := response in
        _ ← (if ok response then
               let headers :=
                 Headers_set (headers responseToCache)
                   (js "Cache-Control")
                   (js "public, max-age=" ++ js (pretty CACHE_TTL)) in
               let cachedResponse :=
                 new_Response (body responseToCache)
                   {| init_status := status responseToCache;
                      init_statusText := statusText responseToCache;
                      init_headers := headers |} in
               cache_put cacheKey cachedResponse
             else mret ());
        let newResponse := new_Response (body response) (asInit response) in
        let cfCacheStatus :=
          orElse (Headers_get (headers response) (js "cf-cache-status"))
            (js "MISS") in
        let newResponse :=
          setHeader newResponse (js "CF-Cache-Status") cfCacheStatus in
        let newResponse :=
          setHeader newResponse (js "X-Cache-Key") cacheKey in
        let newResponse :=
          setHeader newResponse (js "X-Worker-Cache") (js "MISS") in
        mret newResponse
    end.

(** [new Response('Internal Server Error', { status: 500 })]: a string
    body is its UTF-8 octets and brings its content type. *)
Definition internalServerError : Response :=
  new_Response (Some (utf8Encode (js "Internal Server Error")))
    {| init_status := 500;
       init_statusText := [];
       init_headers :=
         [(js "content-type", js "text/plain;charset=UTF-8")] |}.

(** *** One request on its own

    The operations of a request are recorded as events.  The state is the
    store, as [caches.default] answers [match], and the events so far. *)

Inductive event :=
| CacheMatch (key : jsstring)
| CachePut (key : jsstring) (response : Response)
| OriginFetch (request : Request) (cf : option CfOptions).

Record state := {
  store : gmap jsstring Response;
  trace : list event
}.

Definition emit (e : event) (st : state) : state :=
  {| store := store st; trace := trace st ++ [e] |}.

Section Execution.

(** What the origin answers to a request sent with the given options: a
    response, or a failure of the fetch. *)
Variable origin : Request → option CfOptions → result Response.

(** Whether the cache keeps a response that is put under a key.  The write
    is best effort and the platform decides (it keeps nothing for a 206
    response, or for one that has a Set-Cookie header); the worker does not
    see the outcome. *)
Variable keeps : jsstring → Response → bool.

(** The function run without another request in between: [match] is
    answered from the store, [fetch] by the origin, and a put is settled
    at once. *)
Fixpoint run {A} (p : prog A) (st : state) : result A * state :=
  match p with
  | Return r => (r, st)
  | Await_fetch request cf k =>
      run (k (origin request cf)) (emit (OriginFetch request cf) st)
  | Await_match key k => run (k (store st !! key)) (emit (CacheMatch key) st)
  | WaitUntil_put key response k =>
      run k
        {| store := if keeps key response
                    then <[key := response]> (store st) else store st;
           trace := trace st ++ [CachePut key response] |}
  end.

(** The exported [fetch] handler: an exception of [handleRequest] becomes
    the 500 response. *)
Definition worker_fetch (request : Request) (st : state)
    : Response * state :=
  match run (handleRequest request) st with
  | (Ok response, st') => (response, st')
  | (Throw _, st') => (internalServerError, st')
  end.

End Execution.

(** *** Requests in flight together

    The platform serves many requests at a time.  A request runs from one
    await to the next without interruption; at an await any other request
    may go on, a put that was handed over may be settled, and the cache may
    drop an entry.  A world is the cache, the puts handed over and not yet
    settled, the requests received (each with what is left of its handler)
    and the events so far. *)

Record world := {
  cache : gmap jsstring Response;
  pending : list (jsstring * Response);
  tasks : list (Request * prog Response);
  log : list event
}.

Definition emptyWorld : world :=
  {| cache := ∅; pending := []; tasks := []; log := [] |}.

(** What the platform does next. *)
Inductive move :=
| Arrive (request : Request)
| CacheAnswers (task : nat)
| OriginAnswers (task : nat) (answer : result Response)
| Settle (put : nat) (kept : bool)
| Evict (key : jsstring).

(** A handler runs on to its next await or to its end; the puts it hands
    over on the way are collected. *)
Fixpoint toAwait (p : prog Response)
    : list (jsstring * Response) * prog Response :=
  match p with
  | WaitUntil_put key response k =>
      let '(puts, p') := toAwait k in ((key, response) :: puts, p')
  | _ => ([], p)
  end.

Definition runOn (w : world) (task : option nat) (request : Request)
    (p : prog Response) (events : list event) : world :=
  let '(puts, p') := toAwait p in
  {| cache := cache w;
     pending := pending w ++ puts;
     tasks := match task with
              | Some i => <[i := (request, p')]> (tasks w)
              | None => tasks w ++ [(request, p')]
              end;
     log := log w ++ events ++ ((λ put, CachePut put.1 put.2) <$> puts) |}.

Definition step (w : world) (m : move) : world :=
  match m with
  | Arrive request => runOn w None request (handleRequest request) []
  | CacheAnswers i =>
      match tasks w !! i with
      | Some (request, Await_match key k) =>
          runOn w (Some i) request (k (cache w !! key)) [CacheMatch key]
      | _ => w
      end
  | OriginAnswers i answer =>
      match tasks w !! i with
      | Some (request, Await_fetch request' cf k) =>
          runOn w (Some i) request (k answer) [OriginFetch request' cf]
      | _ => w
      end
  | Settle j kept =>
      match pending w !! j with
      | Some (key, response) =>
          {| cache := if kept then <[key := response]> (cache w)
                      else cache w;
             pending := delete j (pending w);
             tasks := tasks w;
             log := log w |}
      | None => w
      end
  | Evict key =>
      {| cache := delete key (cache w);
         pending := pending w;
         tasks := tasks w;
         log := log w |}
  end.

Definition play (moves : list move) (w : world) : world :=
  foldl step w moves.

(** * Vocabulary of the properties *)

(** No entry of the jar has an empty name or an empty value. *)
Definition noEmptyEntry (cookies : gmap jsstring jsstring) : Prop :=
  ∀ name value, cookies !! name = Some value → name ≠ [] ∧ value ≠ [].

(** Code units below the surrogate range. *)
Definition noSurrogate (s : jsstring) : Prop := Forall (λ c, c < 55296) s.

(** The components of a URL record are as the URL parser leaves them for an
    http or https URL: a host without delimiter, a path that starts with
    '/' and has no '?' or '#', a query without '#'. *)
Definition isSerialised (u : URL) : bool :=
  (str_eqb (url_scheme u) (js "http") || str_eqb (url_scheme u) (js "https"))
  && truthy (url_host u)
  && forallb (λ c, negb ((c =? 47) || (c =? 63) || (c =? 35))) (url_host u)
  && negb (existsb (λ c, c =? 64) (url_host u))
  && startsWith (url_path u) (js "/")
  && forallb (λ c, negb ((c =? 63) || (c =? 35))) (url_path u)
  && forallb (λ c, negb (c =? 35)) (default [] (url_query u)).

(** The same URL with another query. *)
Definition withQuery (u : URL) (query : option jsstring) : URL :=
  {| url_scheme := url_scheme u; url_host := url_host u;
     url_path := url_path u; url_query := query;
     url_fragment := url_fragment u |}.

(** The Cookie header as [handleRequest] passes it to [parseCookies]
    (line 30). *)
Definition cookieHeaderOf (request : Request) : jsstring :=
  orElse (Headers_get (request_headers request) (js "Cookie")) (js "").

(** What the three guards of [handleRequest] (lines 33-48) decide for a
    request, once its URL and cookies are parsed. *)
Inductive decision := Bypass | Cacheable.

Definition classify (request : Request) : result decision :=
  u ← new_URL (url request);
  cookies ← parseCookies (cookieHeaderOf request);
  Ok (if negb (str_eqb (method request) (js "GET"))
         || startsWith (pathname u) (js "/my-account")
         || shouldBypassCache cookies
      then Bypass else Cacheable).

(** The cache key [handleRequest] computes for a request (line 51). *)
Definition cacheKeyOf (request : Request) : result jsstring :=
  u ← new_URL (url request);
  cookies ← parseCookies (cookieHeaderOf request);
  generateCacheKey u cookies.

(** ** Sample URLs, requests and origins *)

Definition aboutUs : URL :=
  {| url_scheme := js "https"; url_host := js "host";
     url_path := js "/about-us"; url_query := Some (js "ref=mail");
     url_fragment := None |}.

Definition widget : URL :=
  {| url_scheme := js "https"; url_host := js "host";
     url_path := js "/product/widget-1"; url_query := None;
     url_fragment := None |}.

Definition spareParts : URL :=
  {| url_scheme := js "https"; url_host := js "host";
     url_path := js "/shop/spare-parts"; url_query := Some (js "sort=price");
     url_fragment := None |}.

Definition shop : URL :=
  {| url_scheme := js "https"; url_host := js "host"; url_path := js "/shop";
     url_query := None; url_fragment := None |}.

Definition shopUser : URL := withQuery shop (Some (js "aelia_cache=x")).

Definition widgetKey : jsstring :=
  js ("https://host/product/widget-1?aelia_cache="
      ++ "aelia_cs_selected_currency%253Ddefault"
      ++ "%2526aelia_customer_country%253Ddefault").

(** [widgetKey] as a URL. *)
Definition widgetKeyUrl : URL :=
  {| url_scheme := js "https"; url_host := js "host";
     url_path := js "/product/widget-1";
     url_query :=
       Some (js ("aelia_cache=aelia_cs_selected_currency%253Ddefault"
                 ++ "%2526aelia_customer_country%253Ddefault"));
     url_fragment := None |}.

Definition pageResponse : Response :=
  {| body := Some (utf8Encode (js "<html></html>"));
     status := 200;
     statusText := js "OK";
     headers := [(js "Content-Type", js "text/html");
                 (js "x-cache-key", js "from-origin");
                 (js "Server", js "nginx")] |}.

Definition sampleOrigin : Request → option CfOptions → result Response :=
  λ _ _, Ok pageResponse.

Definition plainResponse : Response :=
  {| body := Some (utf8Encode (js "done"));
     status := 200;
     statusText := js "OK";
     headers := [(js "Content-Type", js "text/plain")] |}.

Definition plainOrigin : Request → option CfOptions → result Response :=
  λ _ _, Ok plainResponse.

Definition emptyState : state := {| store := ∅; trace := [] |}.

Definition cartRequest : Request :=
  {| method := js "GET";
     url := js "https://host/shop";
     request_headers := [(js "cookie", js "woocommerce_cart_hash=abc123")] |}.

Definition postRequest : Request :=
  {| method := js "POST";
     url := js "https://host/checkout";
     request_headers := [] |}.

Definition widgetRequest : Request :=
  {| method := js "GET";
     url := js "https://host/product/widget-1";
     request_headers := [] |}.

(** A cache that keeps whatever is put. *)
Definition keepsAll : jsstring → Response → bool := λ _ _, true.

(** The state after [widgetRequest] was served once from the origin. *)
Definition warmState : state :=
  (worker_fetch sampleOrigin keepsAll widgetRequest emptyState).2.

(** ** The responses the dispatcher builds, and further vocabulary *)

(** The response of a cache hit (lines 60-66). *)
Definition hitResponse (stored : Response) (cacheKey : jsstring) : Response :=
  setHeader
    (setHeader (new_Response (body stored) (asInit stored))
       (js "CF-Cache-Status") (js "HIT"))
    (js "X-Cache-Key") cacheKey.

(** The copy of the origin's response that the miss branch puts
    (lines 92-99). *)
Definition cachedCopy (response : Response) : Response :=
  new_Response (body response)
    {| init_status := status response;
       init_statusText := statusText response;
       init_headers :=
         Headers_set (headers response) (js "Cache-Control")
           (js "public, max-age=" ++ js (pretty CACHE_TTL)) |}.

(** The response the miss branch returns (lines 106-112). *)
Definition missResponse (response : Response) (cacheKey : jsstring)
    : Response :=
  setHeader
    (setHeader
       (setHeader (new_Response (body response) (asInit response))
          (js "CF-Cache-Status")
          (orElse (Headers_get (headers response) (js "cf-cache-status"))
             (js "MISS")))
       (js "X-Cache-Key") cacheKey)
    (js "X-Worker-Cache") (js "MISS").

(** Every put that a handler can still hand over satisfies [P], whatever
    the platform answers. *)
Fixpoint allPuts {A} (P : jsstring → Response → Prop) (p : prog A) : Prop :=
  match p with
  | Return _ => True
  | Await_fetch _ _ k => ∀ answer, allPuts P (k answer)
  | Await_match _ k => ∀ found, allPuts P (k found)
  | WaitUntil_put key response k => P key response ∧ allPuts P k
  end.

(** A cookie for which [cookies[cookieName] || 'default'] is 'default':
    absent, empty, or the literal "default". *)
Definition usesDefault (value : option jsstring) : Prop :=
  value = None ∨ value = Some [] ∨ value = Some (js "default").

(** The code units encodeURIComponent writes: unreserved ones and '%'. *)
Definition tokenChar (c : N) : bool := isUnescaped c || (c =? 37).

(** The strings of a jar are sequences of UTF-16 code units. *)
Definition validJar (cookies : gmap jsstring jsstring) : Prop :=
  ∀ name value, cookies !! name = Some value → Forall (λ c, c < 65536) value.

Definition isOctets (octets : list N) : Prop := Forall (λ b, b < 256) octets.

Definition octetPairs (tuples : list (list N * list N)) : Prop :=
  Forall (λ p, isOctets p.1 ∧ isOctets p.2) tuples.

(** The parameters with the values given to [name] left out. *)
Definition blankValues (name : list N) (tuples : list (list N * list N))
    : list (list N * list N) :=
  (λ p, if bool_decide (p.1 = name) then (p.1, []) else p) <$> tuples.

(** All that is in the cache, and all that can still come into it,
    satisfies [P]. *)
Definition worldKeeps (P : jsstring → Response → Prop) (w : world) : Prop :=
  map_Forall P (cache w)
  ∧ Forall (λ put, P put.1 put.2) (pending w)
  ∧ Forall (λ task, allPuts P task.2) (tasks w).

(** [p'] is what is left of [p] after the platform answered some of its
    awaits and took some of its puts. *)
Inductive resumes {A} : prog A → prog A → Prop :=
| resumes_refl p : resumes p p
| resumes_fetch request cf k answer p' :
    resumes (k answer) p' → resumes (Await_fetch request cf k) p'
| resumes_match key k found p' :
    resumes (k found) p' → resumes (Await_match key k) p'
| resumes_put key response k p' :
    resumes k p' → resumes (WaitUntil_put key response k) p'.

(** ** The analysis of the consistency script
    (src/unnamed/part_000, lines 159-243)

    What the script reads back from a result file: the debug document of
    one location.  [pages] maps a page to its data, of which the analysis
    reads the hash; [colo] is [data.edgeLocation?.colo]. *)

Record PageData := { hash : option jsstring }.

Record DebugData := {
  colo : option jsstring;
  pages : option (gmap jsstring PageData)
}.

Record LocationResult := {
  location : jsstring;
  data : DebugData
}.

(** [allPages]: the pages of all results (lines 177-184). *)
Definition allPages (allResults : list LocationResult) : gset jsstring :=
  ⋃ ((λ result, from_option dom ∅ (pages (data result))) <$> allResults).

(** The hash one result contributes for a page: [pageData.hash] when
    [pageData && pageData.hash] is truthy (lines 198-203). *)
Definition hashOf (result : LocationResult) (page : jsstring)
    : option jsstring :=
  pages ← pages (data result);
  pageData ← pages !! page;
  h ← hash pageData;
  if truthy h then Some h else None.

(** [hashes] of one page, in the order of the results. *)
Definition hashes (allResults : list LocationResult) (page : jsstring)
    : list jsstring :=
  omap (λ result, hashOf result page) allResults.

(** [uniqueHashes.size > 1] (lines 215-217). *)
Definition inconsistent (allResults : list LocationResult) (page : jsstring)
    : bool :=
  bool_decide (1 < size (list_to_set (hashes allResults page) : gset jsstring))%nat.

(** [foundInconsistency] after the loop over the pages (lines 187-230). *)
Definition foundInconsistency (allResults : list LocationResult) : bool :=
  existsb (inconsistent allResults) (elements (allPages allResults)).

(** The exit code of the script (lines 236-243). *)
Definition exitCode (allResults : list LocationResult) : N :=
  if foundInconsistency allResults then 1 else 0.

(** ** Further sample origins and requests *)

Definition notFoundResponse : Response :=
  {| body := Some (utf8Encode (js "not found"));
     status := 404;
     statusText := js "Not Found";
     headers := [(js "Content-Type", js "text/plain")] |}.

Definition notFoundOrigin : Request → option CfOptions → result Response :=
  λ _ _, Ok notFoundResponse.

(** An origin that cannot be reached: the fetch rejects. *)
Definition downOrigin : Request → option CfOptions → result Response :=
  λ _ _, Throw TypeError.

(** A cache that keeps nothing. *)
Definition keepsNone : jsstring → Response → bool := λ _ _, false.

Definition brokenCookieRequest : Request :=
  {| method := js "GET";
     url := js "https://host/shop";
     request_headers := [(js "Cookie", js "a=%")] |}.

Definition brokenPostRequest : Request :=
  {| method := js "POST";
     url := js "https://host/my-account/orders";
     request_headers := [(js "Cookie", js "woocommerce_cart_hash=%")] |}.

Definition emptyCartRequest : Request :=
  {| method := js "GET";
     url := js "https://host/shop";
     request_headers :=
       [(js "Cookie",
         js "woocommerce_cart_hash=;wp_woocommerce_session_1=")] |}.

(** * Properties *)

(** ** Strings *)

Lemma startsWith_spec (s p : jsstring) :
  startsWith s p = true ↔ ∃ suffix, s = p ++ suffix.
Proof.
  revert s. induction p as [|c p IH]; intros s; simpl.
  - split; [intros _; by exists s | by destruct s].
  - destruct s as [|d s]; simpl.
    + split; [done | intros [suffix Hs]; discriminate Hs].
    + rewrite andb_true_iff, N.eqb_eq, IH. split.
      * intros [-> [suffix ->]]. by exists suffix.
      * intros [suffix Hs]. injection Hs as -> ->. eauto.
Qed.

Lemma str_eqb_eq (s t : jsstring) : str_eqb s t = true ↔ s = t.
Proof. unfold str_eqb. by rewrite bool_decide_eq_true. Qed.

Lemma truthy_true (s : jsstring) : truthy s = true ↔ s ≠ [].
Proof. by destruct s. Qed.

Lemma split_notin (sep : N) (s : jsstring) :
  sep ∉ s → split sep s = [s].
Proof.
  induction s as [|c s IH]; intros Hs; [done|].
  apply not_elem_of_cons in Hs as [Hc Hs]. simpl.
  destruct (N.eqb_spec c sep) as [->|_]; [done|]. by rewrite IH.
Qed.

Lemma split_app (sep : N) (s t : jsstring) :
  sep ∉ s → split sep (s ++ sep :: t) = s :: split sep t.
Proof.
  induction s as [|c s IH]; intros Hs; simpl.
  - by rewrite N.eqb_refl.
  - apply not_elem_of_cons in Hs as [Hc Hs].
    destruct (N.eqb_spec c sep) as [->|_]; [done|]. by rewrite IH.
Qed.

Lemma split_join (sep : N) (parts : list jsstring) :
  parts ≠ [] → Forall (λ p, sep ∉ p) parts →
  split sep (join [sep] parts) = parts.
Proof.
  induction parts as [|p parts IH]; [done|]. intros _ Hall.
  apply Forall_cons in Hall as [Hp Hall].
  destruct parts as [|q parts]; simpl.
  - by apply split_notin.
  - rewrite split_app by done. f_equal. by apply IH.
Qed.

Lemma filter_none {A} (P : A → Prop) `{!∀ x, Decision (P x)} (l : list A) :
  (∀ x, ¬ P x) → filter P l = [].
Proof.
  intros HP. induction l as [|x l IH]; [done|].
  by rewrite filter_cons_False.
Qed.

(** ** Strings without surrogates, URL round trip *)

Lemma not_surrogate (c : N) :
  c < 55296 → isHighSurrogate c = false ∧ isLowSurrogate c = false.
Proof.
  intros Hc. unfold isHighSurrogate, isLowSurrogate.
  rewrite !andb_false_iff, !N.leb_gt. lia.
Qed.

Lemma scalarValues_app (a b : jsstring) :
  noSurrogate a → scalarValues (a ++ b) = a ++ scalarValues b.
Proof.
  induction 1 as [|c a Hc _ IH]; [done|].
  destruct (not_surrogate c Hc) as [Hhi Hlo]. simpl.
  by rewrite Hhi, Hlo, IH.
Qed.

Lemma encodeURIComponent_app (a b : jsstring) :
  noSurrogate a →
  encodeURIComponent (a ++ b)
  = ea ← encodeURIComponent a; eb ← encodeURIComponent b; Ok (ea ++ eb).
Proof.
  induction 1 as [|c a Hc _ IH]; simpl.
  - by destruct (encodeURIComponent b).
  - destruct (not_surrogate c Hc) as [-> ->]. rewrite IH.
    destruct (isUnescaped c), (encodeURIComponent a), (encodeURIComponent b);
      simpl; try done.
    by rewrite app_assoc.
Qed.

Lemma scalarValues_id (a : jsstring) : noSurrogate a → scalarValues a = a.
Proof.
  intros Ha. rewrite <- (app_nil_r a) at 1.
  by rewrite scalarValues_app, app_nil_r.
Qed.

Lemma urlencodedString_app (a b : jsstring) :
  noSurrogate a →
  urlencodedString (a ++ b) = urlencodedString a ++ urlencodedString b.
Proof.
  intros Ha. unfold urlencodedString, urlencodedOctets, utf8Encode.
  by rewrite scalarValues_app, !bind_app, (scalarValues_id a) by done.
Qed.

Lemma utf8Encode_ascii (s : jsstring) :
  Forall (λ c, c < 128) s → utf8Encode s = s.
Proof.
  intros Hs. unfold utf8Encode. rewrite scalarValues_id.
  - induction Hs as [|c s Hc _ IH]; [done|]. cbn [mbind list_bind].
    rewrite IH. unfold utf8. apply N.ltb_lt in Hc. by rewrite Hc.
  - eapply Forall_impl; [done|]. simpl. lia.
Qed.

Lemma breakAt_app (stop : N → bool) (a b : jsstring) (c : N) :
  Forall (λ x, stop x = false) a → stop c = true →
  breakAt stop (a ++ c :: b) = (a, c :: b).
Proof.
  intros Ha Hc. induction Ha as [|x a Hx _ IH]; simpl.
  - by rewrite Hc.
  - by rewrite Hx, IH.
Qed.

Lemma breakAt_all (stop : N → bool) (a : jsstring) :
  Forall (λ x, stop x = false) a → breakAt stop a = (a, []).
Proof.
  induction 1 as [|x a Hx _ IH]; simpl; [done|]. by rewrite Hx, IH.
Qed.

Lemma forallb_Forall_false (stop : N → bool) (s : jsstring) :
  forallb (λ c, negb (stop c)) s = true → Forall (λ c, stop c = false) s.
Proof.
  rewrite forallb_forall, Forall_forall. intros H c Hc.
  apply negb_true_iff, H. by apply list_elem_of_In.
Qed.

Lemma parseQueryAndFragment_query (q : jsstring) :
  Forall (λ c, (c =? 35) = false) q →
  parseQueryAndFragment (63 :: q) = (Some q, None).
Proof.
  intros Hq. unfold parseQueryAndFragment.
  change (63 =? 63) with true. cbv iota. by rewrite breakAt_all.
Qed.

Lemma new_URL_serialised (scheme hst p s : jsstring) (query : option jsstring) :
  scheme = js "http" ∨ scheme = js "https" →
  truthy hst = true →
  Forall (λ c, (c =? 47) || (c =? 63) || (c =? 35) = false) hst →
  existsb (λ c, c =? 64) hst = false →
  Forall (λ c, (c =? 63) || (c =? 35) = false) (47 :: p) →
  (s = [] ∧ query = None
   ∨ ∃ q, s = 63 :: q ∧ query = Some q ∧ Forall (λ c, (c =? 35) = false) q) →
  new_URL ((scheme ++ js ":") ++ js "//" ++ hst ++ (47 :: p) ++ s)
  = Ok {| url_scheme := scheme; url_host := hst; url_path := 47 :: p;
          url_query := query; url_fragment := None |}.
Proof.
  intros Hs Hh Hhc Hat Hpc Hq. unfold new_URL.
  replace (breakAt (λ c, c =? 58) _)
    with (scheme, js "://" ++ hst ++ (47 :: p) ++ s)
    by (by destruct Hs as [-> | ->]).
  cbv beta iota.
  replace (negb (str_eqb scheme (js "http") || str_eqb scheme (js "https")))
    with false by (by destruct Hs as [-> | ->]).
  change (negb (startsWith (js "://" ++ ?x) (js "://"))) with false.
  change (drop 3 (js "://" ++ ?x)) with x. cbv beta iota.
  change (hst ++ (47 :: p) ++ s) with (hst ++ 47 :: (p ++ s)).
  rewrite breakAt_app by done. rewrite Hh, Hat. cbv beta iota.
  change (negb true || false) with false. cbv iota.
  destruct Hq as [[-> ->] | (q & -> & -> & Hq)].
  - rewrite app_nil_r, (breakAt_all _ (47 :: p)) by done. done.
  - change (47 :: p ++ 63 :: q) with ((47 :: p) ++ 63 :: q).
    rewrite breakAt_app by done. by rewrite parseQueryAndFragment_query.
Qed.

Lemma new_URL_baseKey (u : URL) :
  isSerialised u = true →
  new_URL (baseKey u)
  = Ok {| url_scheme := url_scheme u;
          url_host := url_host u;
          url_path := url_path u;
          url_query :=
            if truthy (default [] (url_query u)) then url_query u else None;
          url_fragment := None |}.
Proof.
  destruct u as [scheme hst path query fragment]. unfold isSerialised.
  cbn [url_scheme url_host url_path url_query].
  rewrite !andb_true_iff, orb_true_iff, !str_eqb_eq, negb_true_iff.
  intros ((((((Hs & Hh) & Hhc) & Hat) & Hp) & Hpc) & Hq).
  apply startsWith_spec in Hp as [p ->]. change (js "/" ++ p) with (47 :: p) in *.
  apply forallb_Forall_false in Hhc, Hpc, Hq.
  unfold baseKey, protocol, host, pathname, search.
  cbn [url_scheme url_host url_path url_query].
  apply new_URL_serialised; try done.
  destruct query as [[|c q]|]; [by left| |by left].
  right. by exists (c :: q).
Qed.

Lemma isSerialised_withQuery (u : URL) (q : jsstring) :
  isSerialised u = true → 35 ∉ q → isSerialised (withQuery u (Some q)) = true.
Proof.
  unfold isSerialised. cbn [withQuery url_scheme url_host url_path url_query].
  rewrite !andb_true_iff. intros [H _] Hq. split; [done|].
  apply forallb_forall. intros c Hc. apply negb_true_iff, N.eqb_neq.
  intros ->. by apply Hq, list_elem_of_In.
Qed.

Lemma isSerialised_noQuery (u : URL) :
  isSerialised u = true → isSerialised (withQuery u None) = true.
Proof.
  unfold isSerialised. cbn [withQuery url_scheme url_host url_path url_query].
  rewrite !andb_true_iff. by intros [H _].
Qed.

Lemma searchParams_aelia_cache (v : jsstring) :
  Forall (λ c, c < 128) v → 38 ∉ v →
  urlencodedParse (utf8Encode (js "aelia_cache=" ++ v))
  = [(js "aelia_cache", urlencodedDecode v)].
Proof.
  intros Hascii Hamp. rewrite utf8Encode_ascii.
  2:{ apply Forall_app. split; [compute_done|done]. }
  unfold urlencodedParse. rewrite split_notin.
  2:{ apply not_elem_of_app. split; [compute_done|done]. }
  reflexivity.
Qed.

(** ** The bypass classifier *)

Lemma Object_keys_spec (cookies : gmap jsstring jsstring) (name : jsstring) :
  In name (Object_keys cookies) ↔ is_Some (cookies !! name).
Proof.
  unfold Object_keys. rewrite <- list_elem_of_In, list_elem_of_fmap. split.
  - intros [[n v] [-> Hin]]. apply elem_of_map_to_list in Hin. by exists v.
  - intros [v Hv]. exists (name, v). split; [done|].
    by apply elem_of_map_to_list.
Qed.

(** C5. shouldBypassCache(jar) is true exactly when the jar has a cookie
    named woocommerce_cart_hash or woocommerce_items_in_cart, or one whose
    name starts with wp_woocommerce_session_ (with any suffix, the empty one
    too); it is false for the empty jar. *)
Theorem shouldBypassCache_iff :
  (∀ cookies : gmap jsstring jsstring,
     shouldBypassCache cookies = true ↔
     ∃ name, is_Some (cookies !! name) ∧
       (name = js "woocommerce_cart_hash"
        ∨ name = js "woocommerce_items_in_cart"
        ∨ ∃ suffix, name = js "wp_woocommerce_session_" ++ suffix))
  ∧ shouldBypassCache ∅ = false.
Proof.
  split; [|done]. intros cookies.
  unfold shouldBypassCache, WOOCOMMERCE_BYPASS_COOKIES. cbn [existsb].
  change (endsWith (js "woocommerce_cart_hash") (js "_")) with false.
  change (endsWith (js "woocommerce_items_in_cart") (js "_")) with false.
  change (endsWith (js "wp_woocommerce_session_") (js "_")) with true.
  cbv beta iota. rewrite orb_false_r, !orb_true_iff, !existsb_exists.
  setoid_rewrite Object_keys_spec. setoid_rewrite str_eqb_eq.
  setoid_rewrite startsWith_spec. split.
  - intros [(x & ? & ->)|[(x & ? & ->)|(x & ? & sfx & ->)]];
      eexists; split; eauto.
  - intros (name & ? & [->|[->|[sfx ->]]]);
      [left|right; left|right; right]; eauto.
Qed.

(** ** The cache key of a plain path *)

(** C4. For a URL whose path starts neither with /shop nor with /product/,
    generateCacheKey returns the base key protocol//host+pathname+search,
    and any two cookie jars give the same key. *)
Theorem generateCacheKey_plain (url : URL)
    (cookies cookies' : gmap jsstring jsstring) :
  startsWith (pathname url) (js "/shop") = false →
  startsWith (pathname url) (js "/product/") = false →
  generateCacheKey url cookies
    = Ok (protocol url ++ js "//" ++ host url ++ pathname url ++ search url)
  ∧ generateCacheKey url cookies = generateCacheKey url cookies'.
Proof.
  intros Hshop Hproduct. unfold generateCacheKey, isShopOrProductPath.
  by rewrite Hshop, Hproduct.
Qed.

Lemma generateCacheKey_plain_witness :
  new_URL (js "https://host/about-us?ref=mail") = Ok aboutUs
  ∧ generateCacheKey aboutUs {[ js "aelia_cs_selected_currency" := js "USD" ]}
      = Ok (js "https://host/about-us?ref=mail")
  ∧ generateCacheKey aboutUs {[ js "aelia_cs_selected_currency" := js "USD" ]}
      = generateCacheKey aboutUs
          {[ js "aelia_cs_selected_currency" := js "EUR";
             js "aelia_customer_country" := js "DE" ]}.
Proof.
  split; [reflexivity|].
  exact (generateCacheKey_plain aboutUs _ _ eq_refl eq_refl).
Defined.

(** ** The cache key of a variant-sensitive path *)

(** C1, as the code has it.  For GET /product/widget-1 without cookies the
    request is cacheable and its key is the base URL with one added query
    parameter aelia_cache, whose value is the percent-encoding of
    "aelia_cs_selected_currency=default&aelia_customer_country=default".
    In the key that value is written by the URL's form-urlencoded
    serializer, which writes each '%' of the token as "%25". *)
Theorem widget_key :
  new_URL (url widgetRequest) = Ok widget
  ∧ parseCookies (cookieHeaderOf widgetRequest) = Ok ∅
  ∧ classify widgetRequest = Ok Cacheable
  ∧ aeliaCookieValues ∅
    = js "aelia_cs_selected_currency=default&aelia_customer_country=default"
  ∧ ∃ token keyUrl,
      encodeURIComponent (aeliaCookieValues ∅) = Ok token
      ∧ token
        = js "aelia_cs_selected_currency%3Ddefault%26aelia_customer_country%3Ddefault"
      ∧ generateCacheKey widget ∅
        = Ok (js "https://host/product/widget-1?aelia_cache="
              ++ urlencodedString token)
      ∧ generateCacheKey widget ∅ = Ok widgetKey
      ∧ cacheKeyOf widgetRequest = Ok widgetKey
      ∧ new_URL widgetKey = Ok keyUrl
      ∧ searchParams keyUrl = [(js "aelia_cache", token)].
Proof.
  split_and!; try reflexivity.
  exists (js "aelia_cs_selected_currency%3Ddefault%26aelia_customer_country%3Ddefault"),
    widgetKeyUrl.
  split_and!; vm_compute; reflexivity.
Qed.

(** C1 as stated fails: the key is not the base URL followed by
    "?aelia_cache=" and the percent-encoded token. *)
Lemma widget_key_not_token :
  ∃ token,
    encodeURIComponent
      (js "aelia_cs_selected_currency=default&aelia_customer_country=default")
    = Ok token
    ∧ generateCacheKey widget ∅
      ≠ Ok (js "https://host/product/widget-1?aelia_cache=" ++ token).
Proof. eexists. split; [reflexivity|]. by vm_compute. Qed.

Lemma generateCacheKey_spareParts cookies token :
  encodeURIComponent (aeliaCookieValues cookies) = Ok token →
  generateCacheKey spareParts cookies
  = Ok (js "https://host/shop/spare-parts?sort=price&aelia_cache="
        ++ urlencodedString token).
Proof.
  intros Htoken. unfold generateCacheKey.
  change (isShopOrProductPath (pathname spareParts)) with true. cbv iota.
  assert (new_URL (baseKey spareParts) = Ok spareParts) as -> by reflexivity.
  rewrite Htoken. cbn [mbind result_bind]. f_equal.
  unfold toString, searchParams_set.
  cbn [url_scheme url_host url_path url_query url_fragment].
  rewrite app_nil_r.
  change (searchParams spareParts) with [(js "sort", js "price")].
  reflexivity.
Qed.

Lemma aeliaCookieValues_currency (cookies : gmap jsstring jsstring)
    (currency : jsstring) :
  truthy currency = true →
  aeliaCookieValues (<[js "aelia_cs_selected_currency" := currency]> cookies)
  = js "aelia_cs_selected_currency=" ++ currency
    ++ js "&aelia_customer_country="
    ++ cookieOrDefault cookies (js "aelia_customer_country").
Proof.
  intros Hc. unfold aeliaCookieValues, AELIA_CACHE_COOKIES, cookieOrDefault.
  cbn [fmap list_fmap join].
  rewrite lookup_insert_eq, lookup_insert_ne by discriminate. rewrite Hc.
  by rewrite <- !app_assoc.
Qed.

Lemma currency_key (cookies : gmap jsstring jsstring)
    (currency prefix country : jsstring) :
  truthy currency = true →
  noSurrogate (js "aelia_cs_selected_currency=" ++ currency
               ++ js "&aelia_customer_country=") →
  encodeURIComponent (js "aelia_cs_selected_currency=" ++ currency
                      ++ js "&aelia_customer_country=") = Ok prefix →
  encodeURIComponent (cookieOrDefault cookies (js "aelia_customer_country"))
    = Ok country →
  generateCacheKey spareParts
    (<[js "aelia_cs_selected_currency" := currency]> cookies)
  = Ok (js "https://host/shop/spare-parts?sort=price&aelia_cache="
        ++ urlencodedString (prefix ++ country)).
Proof.
  intros Hc Hs Hprefix Hcountry. apply generateCacheKey_spareParts.
  rewrite aeliaCookieValues_currency by done.
  rewrite (app_assoc currency), (app_assoc (js "aelia_cs_selected_currency=")).
  rewrite encodeURIComponent_app by done. by rewrite Hprefix, Hcountry.
Qed.

(** C3. For the URL /shop/spare-parts?sort=price and two cookie jars that
    differ only in aelia_cs_selected_currency, USD in one and EUR in the
    other, generateCacheKey produces two keys and they differ.  (The other
    cookies are any; the country value is one that encodeURIComponent
    accepts.) *)
Theorem currency_distinguishes (cookies : gmap jsstring jsstring)
    (country : jsstring) :
  encodeURIComponent (cookieOrDefault cookies (js "aelia_customer_country"))
    = Ok country →
  ∃ keyUSD keyEUR,
    generateCacheKey spareParts
      (<[js "aelia_cs_selected_currency" := js "USD"]> cookies) = Ok keyUSD
    ∧ generateCacheKey spareParts
        (<[js "aelia_cs_selected_currency" := js "EUR"]> cookies) = Ok keyEUR
    ∧ keyUSD ≠ keyEUR.
Proof.
  intros Hcountry.
  pose proof (currency_key cookies (js "USD")
                (js "aelia_cs_selected_currency%3DUSD%26aelia_customer_country%3D")
                country eq_refl ltac:(compute_done) eq_refl Hcountry) as HUSD.
  pose proof (currency_key cookies (js "EUR")
                (js "aelia_cs_selected_currency%3DEUR%26aelia_customer_country%3D")
                country eq_refl ltac:(compute_done) eq_refl Hcountry) as HEUR.
  eexists _, _. split; [exact HUSD|]. split; [exact HEUR|].
  rewrite !urlencodedString_app by compute_done.
  intros Heq. apply app_inv_head, app_inv_tail in Heq. by vm_compute in Heq.
Qed.

Lemma currency_distinguishes_witness :
  ∃ keyUSD keyEUR,
    generateCacheKey spareParts
      (<[js "aelia_cs_selected_currency" := js "USD"]>
         {[ js "aelia_customer_country" := js "DE" ]}) = Ok keyUSD
    ∧ generateCacheKey spareParts
        (<[js "aelia_cs_selected_currency" := js "EUR"]>
           {[ js "aelia_customer_country" := js "DE" ]}) = Ok keyEUR
    ∧ keyUSD ≠ keyEUR.
Proof.
  exact (currency_distinguishes {[ js "aelia_customer_country" := js "DE" ]}
           (js "DE") eq_refl).
Defined.

(** After [set], the pairs of that name are the one pair set. *)
Lemma URLSearchParams_set_filter (tuples : list (list N * list N))
    (name value : list N) :
  filter (λ p, p.1 = name) (URLSearchParams_set tuples name value)
  = [(name, value)].
Proof.
  induction tuples as [|[n v] rest IH]; simpl.
  - by rewrite filter_cons_True, filter_nil.
  - case_bool_decide as Hn.
    + rewrite filter_cons_True by done. f_equal.
      rewrite list_filter_filter. apply filter_none. intros [n' v']. tauto.
    + by rewrite filter_cons_False.
Qed.

Lemma generateCacheKey_noQuery (u : URL) (cookies : gmap jsstring jsstring)
    (token : jsstring) :
  isSerialised u = true → isShopOrProductPath (pathname u) = true →
  encodeURIComponent (aeliaCookieValues cookies) = Ok token →
  generateCacheKey (withQuery u None) cookies
  = Ok (url_scheme u ++ js "://" ++ url_host u ++ url_path u
        ++ js "?aelia_cache=" ++ urlencodedString token).
Proof.
  intros Hu Hshop Htoken. unfold generateCacheKey.
  change (pathname (withQuery u None)) with (pathname u). rewrite Hshop.
  rewrite new_URL_baseKey by by apply isSerialised_noQuery.
  rewrite Htoken. cbn [mbind result_bind]. f_equal.
  unfold toString, searchParams_set.
  cbn [withQuery url_scheme url_host url_path url_query url_fragment].
  by rewrite app_nil_r.
Qed.

(** ** The cookie parser *)

Lemma utf16_nonempty (cp : N) (r : jsstring) : utf16 cp ++ r ≠ [].
Proof. unfold utf16. by destruct (cp <? 65536). Qed.

Lemma unescape_nonempty (s : jsstring) (items : list item) :
  unescape s = Ok items → s ≠ [] → items ≠ [].
Proof.
  destruct s as [|c rest]; [done|]. intros H _. simpl in H.
  destruct (c =? 37).
  - destruct rest as [|h [|l rest']]; try discriminate H.
    destruct (hexOctet h l); [|discriminate H].
    destruct (unescape rest'); simpl in H; by simplify_eq.
  - destruct (unescape rest); simpl in H; by simplify_eq.
Qed.

Lemma decodeItems_nonempty (items : list item) (r : jsstring) :
  decodeItems items = Ok r → items ≠ [] → r ≠ [].
Proof.
  destruct items as [|i rest]; [done|]. intros H _. simpl in H.
  destruct i as [c|b].
  { destruct (decodeItems rest); simpl in H; by simplify_eq. }
  repeat match type of H with
  | (if ?c then _ else _) = _ => destruct c
  | match ?l with [] => _ | _ :: _ => _ end = _ => destruct l
  | match ?i with Lit _ => _ | Octet _ => _ end = _ => destruct i
  | (mbind _ ?x) = _ => destruct x; simpl in H
  | Throw _ = Ok _ => discriminate H
  end;
  simplify_eq; first [done | apply utf16_nonempty].
Qed.

Lemma decodeURIComponent_nonempty (s r : jsstring) :
  decodeURIComponent s = Ok r → s ≠ [] → r ≠ [].
Proof.
  unfold decodeURIComponent. intros H Hs.
  destruct (unescape s) as [items|] eqn:Hitems; [|discriminate H].
  simpl in H. eapply decodeItems_nonempty; [done|].
  by eapply unescape_nonempty.
Qed.

Lemma parseCookie_noEmptyEntry cookies cookie cookies' :
  noEmptyEntry cookies → parseCookie cookies cookie = Ok cookies' →
  noEmptyEntry cookies'.
Proof.
  intros Hinv. unfold parseCookie.
  destruct (split 61 (trim cookie) !! 0%nat) as [name|]; [|by intros [= <-]].
  destruct (split 61 (trim cookie) !! 1%nat) as [value|]; [|by intros [= <-]].
  destruct (truthy name && truthy value) eqn:Htruthy; [|by intros [= <-]].
  apply andb_true_iff in Htruthy as [Hname Hvalue%truthy_true].
  apply truthy_true in Hname.
  destruct (decodeURIComponent value) as [v|] eqn:Hv; [|done].
  simpl. intros [= <-]. unfold setProperty.
  destruct (str_eqb name (js "__proto__")); [done|].
  intros n w. rewrite lookup_insert. case_decide as Hn.
  - intros [= <-]. subst n. split; [done|].
    by eapply decodeURIComponent_nonempty.
  - apply Hinv.
Qed.

Lemma forEachCookie_noEmptyEntry fragments cookies cookies' :
  noEmptyEntry cookies → forEachCookie cookies fragments = Ok cookies' →
  noEmptyEntry cookies'.
Proof.
  revert cookies. induction fragments as [|cookie rest IH]; intros cookies Hinv.
  - by intros [= <-].
  - simpl. destruct (parseCookie cookies cookie) as [c1|] eqn:Hc1; [|done].
    simpl. apply IH. by eapply parseCookie_noEmptyEntry.
Qed.

(** A string without '%' decodes to itself. *)
Lemma unescape_no_percent (s : jsstring) :
  37 ∉ s → unescape s = Ok (Lit <$> s).
Proof.
  induction s as [|c s IH]; [done|]. intros Hs.
  apply not_elem_of_cons in Hs as [Hc Hs]. simpl.
  destruct (N.eqb_spec c 37) as [->|_]; [done|]. by rewrite IH.
Qed.

Lemma decodeItems_Lit (s : jsstring) : decodeItems (Lit <$> s) = Ok s.
Proof.
  induction s as [|c s IH]; [done|].
  change (decodeItems (Lit <$> c :: s))
    with (r ← decodeItems (Lit <$> s); Ok (c :: r)).
  by rewrite IH.
Qed.

Lemma decodeURIComponent_no_percent (s : jsstring) :
  37 ∉ s → decodeURIComponent s = Ok s.
Proof.
  intros Hs. unfold decodeURIComponent. rewrite unescape_no_percent by done.
  apply decodeItems_Lit.
Qed.

Lemma split_subset (sep x : N) (s piece : jsstring) :
  piece ∈ split sep s → x ∈ piece → x ∈ s.
Proof.
  revert piece. induction s as [|c s IH]; intros piece; simpl.
  - intros ->%list_elem_of_singleton. by intros ?%elem_of_nil.
  - destruct (c =? sep).
    + intros [->|Hp]%elem_of_cons; [by intros ?%elem_of_nil|].
      intros Hx. right. by eapply IH.
    + destruct (split sep s) as [|w ws].
      * intros ->%list_elem_of_singleton ->%list_elem_of_singleton. by left.
      * intros [->|Hp]%elem_of_cons.
        -- intros [->|Hx]%elem_of_cons; [by left|]. right.
           eapply IH; [by left|done].
        -- intros Hx. right. eapply IH; [by right|done].
Qed.

Lemma trimStart_subset (x : N) (s : jsstring) : x ∈ trimStart s → x ∈ s.
Proof.
  induction s as [|c s IH]; [done|]. simpl.
  destruct (isWhiteSpace c); [|done]. intros Hx. right. by apply IH.
Qed.

Lemma trim_subset (x : N) (s : jsstring) : x ∈ trim s → x ∈ s.
Proof.
  unfold trim, trimEnd. rewrite elem_of_reverse. intros Hx.
  apply trimStart_subset in Hx. rewrite elem_of_reverse in Hx.
  by apply trimStart_subset.
Qed.

Lemma parseCookie_no_percent cookies cookie :
  37 ∉ cookie → ∃ cookies', parseCookie cookies cookie = Ok cookies'.
Proof.
  intros Hcookie. unfold parseCookie.
  destruct (split 61 (trim cookie) !! 0%nat) as [name|]; [|by eexists].
  destruct (split 61 (trim cookie) !! 1%nat) as [value|] eqn:Hvalue;
    [|by eexists].
  destruct (truthy name && truthy value); [|by eexists].
  rewrite decodeURIComponent_no_percent; [by eexists|].
  intros Hin. apply Hcookie, trim_subset.
  eapply split_subset; [|done]. by eapply list_elem_of_lookup_2.
Qed.

Lemma forEachCookie_no_percent fragments cookies :
  Forall (λ f, 37 ∉ f) fragments →
  ∃ cookies', forEachCookie cookies fragments = Ok cookies'.
Proof.
  intros Hall. revert cookies.
  induction Hall as [|cookie rest Hcookie _ IH]; intros cookies; simpl.
  - by eexists.
  - destruct (parseCookie_no_percent cookies cookie Hcookie) as [c1 ->].
    apply IH.
Qed.

(** C6, as the code has it.  Whenever parseCookies returns a jar for a
    header, no entry of the jar has an empty name or an empty value; it
    returns a jar for every header without '%', and the empty jar for the
    empty header, which is also what the dispatcher passes when the request
    has no Cookie header.  (It throws URIError, instead of returning, when
    a value to store is not a valid percent-encoding.) *)
Theorem parseCookies_noEmptyEntry :
  (∀ cookieHeader cookies,
     parseCookies cookieHeader = Ok cookies → noEmptyEntry cookies)
  ∧ (∀ cookieHeader,
       37 ∉ cookieHeader → ∃ cookies, parseCookies cookieHeader = Ok cookies)
  ∧ parseCookies (js "") = Ok ∅
  ∧ parseCookies (orElse None (js "")) = Ok ∅.
Proof.
  split_and!; [| |done|done].
  - intros cookieHeader cookies. unfold parseCookies.
    destruct cookieHeader as [|c rest].
    + intros [= <-] name value. by rewrite lookup_empty.
    + apply forEachCookie_noEmptyEntry. intros name value.
      by rewrite lookup_empty.
  - intros cookieHeader Hheader. unfold parseCookies.
    destruct cookieHeader as [|c rest]; [by eexists|].
    apply forEachCookie_no_percent, Forall_forall. intros f Hf Hin.
    by eapply Hheader, split_subset.
Qed.

Lemma parseCookies_noEmptyEntry_witness :
  noEmptyEntry {[ js "currency" := js "A B"; js "b" := js "1" ]}.
Proof.
  apply (proj1 parseCookies_noEmptyEntry (js "currency=A%20B; =x; b=1; c=")).
  vm_compute. reflexivity.
Defined.

(** C6 as stated fails: for the header "a=%", parseCookies returns no jar,
    it throws URIError. *)
Lemma parseCookies_throws :
  parseCookies (js "a=%") = Throw URIError
  ∧ ¬ ∃ cookies, parseCookies (js "a=%") = Ok cookies ∧ noEmptyEntry cookies.
Proof. split; [reflexivity|]. intros (cookies & H & _). discriminate H. Qed.




(** ** Header lists *)

Lemma sameName_refl (a : jsstring) : sameName a a = true.
Proof. by apply str_eqb_eq. Qed.

Lemma sameName_trans (a b c : jsstring) :
  sameName a b = true → sameName b c = true → sameName a c = true.
Proof. unfold sameName. rewrite !str_eqb_eq. congruence. Qed.

Lemma sameName_sym (a b : jsstring) : sameName a b = sameName b a.
Proof. unfold sameName, str_eqb. apply bool_decide_ext. split; congruence. Qed.

(** The entries named [name']: [set] on another name leaves them as they
    are. *)
Lemma Headers_set_filter_other (headers : Headers) (name value name' : jsstring) :
  sameName name name' = false →
  filter (λ h, sameName h.1 name') (Headers_set headers name value)
  = filter (λ h, sameName h.1 name') headers.
Proof.
  intros Hne. induction headers as [|h rest IH]; simpl.
  - rewrite filter_cons_False, filter_nil; [done|]. by apply Is_true_false.
  - destruct (sameName h.1 name) eqn:Hh.
    + assert (sameName h.1 name' = false) as Hh'.
      { destruct (sameName h.1 name') eqn:E; [|done].
        rewrite <- Hne. symmetry. eapply sameName_trans; [|done].
        by rewrite sameName_sym. }
      rewrite !filter_cons_False by (by apply Is_true_false).
      rewrite list_filter_filter. apply list_filter_iff. intros [n v]. simpl.
      split; [tauto|]. intros Hn. split; [done|]. intros Hn'.
      apply Is_true_true in Hn, Hn'. rewrite sameName_sym in Hn'.
      by rewrite (sameName_trans _ _ _ Hn' Hn) in Hne.
    + destruct (sameName h.1 name') eqn:Hh'.
      * rewrite !filter_cons_True by (by apply Is_true_true). by rewrite IH.
      * rewrite !filter_cons_False by (by apply Is_true_false). by rewrite IH.
Qed.

(** The entries named [name] after [set]: one, with the value. *)
Lemma Headers_set_filter_same (headers : Headers) (name value : jsstring) :
  ∃ n, filter (λ h, sameName h.1 name) (Headers_set headers name value)
       = [(n, value)].
Proof.
  induction headers as [|h rest [n IH]]; simpl.
  - exists name. rewrite filter_cons_True, filter_nil; [done|].
    apply Is_true_true, sameName_refl.
  - destruct (sameName h.1 name) eqn:Hh.
    + exists h.1. rewrite filter_cons_True by (by apply Is_true_true).
      f_equal. rewrite list_filter_filter. apply filter_none.
      intros [n' v']. simpl. tauto.
    + exists n. by rewrite filter_cons_False by (by apply Is_true_false).
Qed.

Lemma Headers_get_set (headers : Headers) (name value : jsstring) :
  Headers_get (Headers_set headers name value) name = Some value.
Proof.
  unfold Headers_get.
  by destruct (Headers_set_filter_same headers name value) as [n ->].
Qed.

Lemma Headers_get_set_other (headers : Headers) (name value name' : jsstring) :
  sameName name name' = false →
  Headers_get (Headers_set headers name value) name'
  = Headers_get headers name'.
Proof.
  intros Hne. unfold Headers_get. by rewrite Headers_set_filter_other.
Qed.

(** The entries of all other names, in their order: [set] keeps them. *)
Lemma Headers_set_frame (headers : Headers) (name value : jsstring)
    (P : jsstring * jsstring → Prop) `{!∀ h, Decision (P h)} :
  (∀ n v, P (n, v) → sameName n name = false) →
  filter P (Headers_set headers name value) = filter P headers.
Proof.
  intros HP. induction headers as [|[n v] rest IH]; simpl.
  - rewrite filter_cons_False, filter_nil; [done|]. intros Hn.
    apply HP in Hn. by rewrite sameName_refl in Hn.
  - destruct (sameName n name) eqn:Hh.
    + rewrite !filter_cons_False
        by (intros Hn; apply HP in Hn; congruence).
      rewrite list_filter_filter. apply list_filter_iff. intros [n' v'].
      split; [tauto|]. intros Hn. split; [done|].
      by eapply Is_true_false, HP.
    + destruct (decide (P (n, v))).
      * rewrite !filter_cons_True by done. by rewrite IH.
      * rewrite !filter_cons_False by done. by rewrite IH.
Qed.

(** ** The dispatcher *)

Ltac response_fields :=
  cbn [fst snd headers body status statusText setHeader new_Response asInit
       init_headers init_status init_statusText hitResponse missResponse
       cachedCopy].

(** *** The handler as a tree *)

Lemma handleRequest_throws request e :
  classify request = Throw e → handleRequest request = Return (Throw e).
Proof.
  unfold classify, handleRequest, cookieHeaderOf.
  destruct (new_URL (url request)) as [u|]; [|by intros [= ->]].
  destruct (parseCookies _) as [cookies|]; [done|]. by intros [= ->].
Qed.

Lemma handleRequest_bypass request :
  classify request = Ok Bypass →
  handleRequest request = fetchFromOrigin request.
Proof.
  unfold classify, handleRequest, cookieHeaderOf.
  destruct (new_URL (url request)) as [u|]; [|done].
  destruct (parseCookies _) as [cookies|]; [|done].
  cbn [mbind prog_mbind result_bind prog_bind pure].
  destruct (negb _); [done|]. destruct (startsWith _ _); [done|].
  by destruct (shouldBypassCache _).
Qed.

Lemma handleRequest_key_throws request e :
  classify request = Ok Cacheable → cacheKeyOf request = Throw e →
  handleRequest request = Return (Throw e).
Proof.
  unfold classify, cacheKeyOf, handleRequest, cookieHeaderOf.
  destruct (new_URL (url request)) as [u|]; [|done].
  destruct (parseCookies _) as [cookies|]; [|done].
  cbn [mbind prog_mbind result_bind prog_bind pure].
  destruct (negb _); [done|]. destruct (startsWith _ _); [done|].
  destruct (shouldBypassCache _); [done|]. by intros _ ->.
Qed.

(** A cacheable request: the match of its key, on a miss the fetch with
    the cf options, and after a successful response the put of the copy. *)
Lemma handleRequest_cacheable request key :
  classify request = Ok Cacheable → cacheKeyOf request = Ok key →
  ∃ k k',
    handleRequest request = Await_match key k
    ∧ (∀ stored, k (Some stored) = Return (Ok (hitResponse stored key)))
    ∧ k None = Await_fetch request (Some missOptions) k'
    ∧ (∀ e, k' (Throw e) = Return (Throw e))
    ∧ (∀ fetched,
         k' (Ok fetched)
         = if ok fetched
           then WaitUntil_put key (cachedCopy fetched)
                  (Return (Ok (missResponse fetched key)))
           else Return (Ok (missResponse fetched key))).
Proof.
  unfold classify, cacheKeyOf, handleRequest, cookieHeaderOf.
  destruct (new_URL (url request)) as [u|]; [|done].
  destruct (parseCookies _) as [cookies|]; [|done].
  cbn [mbind prog_mbind result_bind prog_bind pure].
  destruct (negb _); [done|]. destruct (startsWith _ _); [done|].
  destruct (shouldBypassCache _); [done|]. intros _ ->.
  cbn [mbind prog_mbind prog_bind cache_match fetch].
  eexists _, _. split; [reflexivity|]. cbv beta.
  split; [done|]. split; [reflexivity|]. cbv beta.
  split; [done|]. intros fetched. by destruct (ok fetched).
Qed.

(** *** One request on its own *)

Lemma run_throws origin keeps request st e :
  classify request = Throw e →
  run origin keeps (handleRequest request) st = (Throw e, st).
Proof. intros Hc. by rewrite (handleRequest_throws _ _ Hc). Qed.

Lemma run_bypass origin keeps request st :
  classify request = Ok Bypass →
  run origin keeps (handleRequest request) st
  = (origin request None, emit (OriginFetch request None) st).
Proof. intros Hc. by rewrite (handleRequest_bypass _ Hc). Qed.

Lemma run_key_throws origin keeps request st e :
  classify request = Ok Cacheable → cacheKeyOf request = Throw e →
  run origin keeps (handleRequest request) st = (Throw e, st).
Proof. intros Hc Hk. by rewrite (handleRequest_key_throws _ _ Hc Hk). Qed.

Lemma run_hit origin keeps request st key stored :
  classify request = Ok Cacheable → cacheKeyOf request = Ok key →
  store st !! key = Some stored →
  run origin keeps (handleRequest request) st
  = (Ok (hitResponse stored key), emit (CacheMatch key) st).
Proof.
  intros Hc Hk Hs.
  destruct (handleRequest_cacheable _ _ Hc Hk) as (k & k' & -> & Hhit & _).
  cbn [run]. by rewrite Hs, Hhit.
Qed.

Lemma run_miss origin keeps request st key fetched :
  classify request = Ok Cacheable → cacheKeyOf request = Ok key →
  store st !! key = None →
  origin request (Some missOptions) = Ok fetched →
  run origin keeps (handleRequest request) st
  = (Ok (missResponse fetched key),
     if ok fetched then
       {| store := if keeps key (cachedCopy fetched)
                   then <[key := cachedCopy fetched]> (store st)
                   else store st;
          trace := trace st ++ [CacheMatch key;
                                OriginFetch request (Some missOptions);
                                CachePut key (cachedCopy fetched)] |}
     else
       {| store := store st;
          trace := trace st ++ [CacheMatch key;
                                OriginFetch request (Some missOptions)] |}).
Proof.
  intros Hc Hk Hs Ho.
  destruct (handleRequest_cacheable _ _ Hc Hk)
    as (k & k' & -> & _ & Hmiss & _ & Hfetched).
  cbn [run]. rewrite Hs, Hmiss. cbn [run emit store trace].
  rewrite Ho, Hfetched.
  destruct (ok fetched); cbn [run]; unfold emit; cbn [store trace];
    by rewrite <- !app_assoc.
Qed.

Lemma run_miss_failure origin keeps request st key e :
  classify request = Ok Cacheable → cacheKeyOf request = Ok key →
  store st !! key = None →
  origin request (Some missOptions) = Throw e →
  run origin keeps (handleRequest request) st
  = (Throw e,
     {| store := store st;
        trace := trace st ++ [CacheMatch key;
                              OriginFetch request (Some missOptions)] |}).
Proof.
  intros Hc Hk Hs Ho.
  destruct (handleRequest_cacheable _ _ Hc Hk)
    as (k & k' & -> & _ & Hmiss & Hthrow & _).
  cbn [run]. rewrite Hs, Hmiss. cbn [run emit store trace].
  rewrite Ho, Hthrow. cbn [run]. unfold emit. cbn [store trace].
  by rewrite <- !app_assoc.
Qed.

Lemma classify_Bypass request u cookies :
  new_URL (url request) = Ok u →
  parseCookies (cookieHeaderOf request) = Ok cookies →
  method request ≠ js "GET"
  ∨ startsWith (pathname u) (js "/my-account") = true
  ∨ shouldBypassCache cookies = true →
  classify request = Ok Bypass.
Proof.
  intros Hu Hcookies Hguard. unfold classify. rewrite Hu, Hcookies.
  cbn [mbind result_bind]. f_equal.
  destruct Hguard as [Hmethod|[-> | ->]].
  - unfold str_eqb. by rewrite bool_decide_eq_false_2.
  - by rewrite orb_true_r.
  - by rewrite orb_true_r.
Qed.

(** A request is cacheable when its URL and cookies parse and none of the
    three guards holds. *)
Lemma classify_Cacheable request :
  classify request = Ok Cacheable ↔
  ∃ u cookies,
    new_URL (url request) = Ok u
    ∧ parseCookies (cookieHeaderOf request) = Ok cookies
    ∧ method request = js "GET"
    ∧ startsWith (pathname u) (js "/my-account") = false
    ∧ shouldBypassCache cookies = false.
Proof.
  unfold classify. split.
  - destruct (new_URL (url request)) as [u|]; [|done].
    destruct (parseCookies _) as [cookies|]; [|done]. cbn [mbind result_bind].
    destruct (str_eqb _ _) eqn:Hm; [|done]. apply str_eqb_eq in Hm.
    destruct (startsWith _ _) eqn:Hp; [done|].
    destruct (shouldBypassCache _) eqn:Hc; [done|]. intros _.
    by exists u, cookies.
  - intros (u & cookies & -> & -> & Hm & Hp & Hc). cbn [mbind result_bind].
    apply str_eqb_eq in Hm. by rewrite Hm, Hp, Hc.
Qed.

(** C8, as the code has it.  For a request whose cookies parseCookies
    accepts and that is classified as bypass (its method is not GET, or
    its path starts with /my-account, or its cookies make shouldBypassCache
    true), the handler is the direct fetch of the request from the origin
    and nothing else: the store is not looked up and not written, and the
    origin's response is what the client gets. *)
Theorem bypass_only_fetches origin keeps request st u cookies :
  new_URL (url request) = Ok u →
  parseCookies (cookieHeaderOf request) = Ok cookies →
  method request ≠ js "GET"
  ∨ startsWith (pathname u) (js "/my-account") = true
  ∨ shouldBypassCache cookies = true →
  handleRequest request = fetchFromOrigin request
  ∧ run origin keeps (handleRequest request) st
    = (origin request None, emit (OriginFetch request None) st)
  ∧ store (worker_fetch origin keeps request st).2 = store st
  ∧ trace (worker_fetch origin keeps request st).2
    = trace st ++ [OriginFetch request None]
  ∧ ∀ response, origin request None = Ok response →
      (worker_fetch origin keeps request st).1 = response.
Proof.
  intros Hu Hcookies Hguard.
  pose proof (classify_Bypass _ _ _ Hu Hcookies Hguard) as Hc.
  split; [by apply handleRequest_bypass|]. unfold worker_fetch.
  rewrite (run_bypass _ _ _ _ Hc). split; [done|].
  destruct (origin request None) as [response|e]; simpl; by intuition congruence.
Qed.

(** C2, as the code has it.  For a request that is not bypassed, the
    response of a cache hit carries CF-Cache-Status: HIT and the computed
    key in X-Cache-Key; the response of a miss carries the origin's
    cf-cache-status (MISS without one) in CF-Cache-Status, the computed key
    in X-Cache-Key and X-Worker-Cache: MISS.  For a bypassed request the
    origin's response is returned as it is, and when the handling throws,
    the client gets the plain 500 response. *)
Theorem diagnostic_headers origin keeps request st :
  (∀ key, classify request = Ok Cacheable → cacheKeyOf request = Ok key →
     let response := (worker_fetch origin keeps request st).1 in
     (∀ stored, store st !! key = Some stored →
        Headers_get (headers response) (js "CF-Cache-Status") = Some (js "HIT")
        ∧ Headers_get (headers response) (js "X-Cache-Key") = Some key)
     ∧ (∀ fetched, store st !! key = None →
          origin request (Some missOptions) = Ok fetched →
          Headers_get (headers response) (js "CF-Cache-Status")
            = Some (orElse (Headers_get (headers fetched)
                              (js "cf-cache-status")) (js "MISS"))
          ∧ Headers_get (headers response) (js "X-Cache-Key") = Some key
          ∧ Headers_get (headers response) (js "X-Worker-Cache")
            = Some (js "MISS")))
  ∧ (classify request = Ok Bypass →
     ∀ response, origin request None = Ok response →
       (worker_fetch origin keeps request st).1 = response)
  ∧ (∀ e st', run origin keeps (handleRequest request) st = (Throw e, st') →
       (worker_fetch origin keeps request st).1 = internalServerError).
Proof.
  split; [|split; [|by intros e st' He; unfold worker_fetch; rewrite He]].
  - intros key Hc Hk response. subst response. unfold worker_fetch. split.
    + intros stored Hs. rewrite (run_hit _ _ _ _ _ _ Hc Hk Hs). response_fields.
      split; [|apply Headers_get_set].
      rewrite Headers_get_set_other by done. apply Headers_get_set.
    + intros fetched Hs Ho. rewrite (run_miss _ _ _ _ _ _ Hc Hk Hs Ho).
      response_fields.
      split_and!; [| |apply Headers_get_set].
      * rewrite !Headers_get_set_other by done. apply Headers_get_set.
      * rewrite Headers_get_set_other by done. apply Headers_get_set.
  - intros Hb response Ho. unfold worker_fetch.
    by rewrite (run_bypass _ _ _ _ Hb), Ho.
Qed.

(** C10. On a cache hit, the response has the stored body, status and
    status text; CF-Cache-Status is HIT and X-Cache-Key is the computed
    key; every header of another name reads as in the stored response, and
    the entries of the other names are the stored ones, in their order.
    The store is left as it was and the origin is not fetched. *)
Theorem cache_hit_frame origin keeps request st key stored :
  classify request = Ok Cacheable → cacheKeyOf request = Ok key →
  store st !! key = Some stored →
  let response := (worker_fetch origin keeps request st).1 in
  body response = body stored
  ∧ status response = status stored
  ∧ statusText response = statusText stored
  ∧ Headers_get (headers response) (js "CF-Cache-Status") = Some (js "HIT")
  ∧ Headers_get (headers response) (js "X-Cache-Key") = Some key
  ∧ (∀ name, sameName (js "CF-Cache-Status") name = false →
       sameName (js "X-Cache-Key") name = false →
       Headers_get (headers response) name
       = Headers_get (headers stored) name)
  ∧ filter (λ h, sameName h.1 (js "CF-Cache-Status") = false
                 ∧ sameName h.1 (js "X-Cache-Key") = false)
      (headers response)
    = filter (λ h, sameName h.1 (js "CF-Cache-Status") = false
                   ∧ sameName h.1 (js "X-Cache-Key") = false)
        (headers stored)
  ∧ (worker_fetch origin keeps request st).2 = emit (CacheMatch key) st.
Proof.
  intros Hc Hk Hs response. subst response. unfold worker_fetch.
  rewrite (run_hit _ _ _ _ _ _ Hc Hk Hs). response_fields.
  split_and!; try done.
  - rewrite Headers_get_set_other by done. apply Headers_get_set.
  - apply Headers_get_set.
  - intros name Hcf Hx. by rewrite !Headers_get_set_other by done.
  - by rewrite !Headers_set_frame by (simpl; tauto).
Qed.

Lemma bypass_only_fetches_witness :
  (worker_fetch sampleOrigin keepsAll cartRequest emptyState).1 = pageResponse
  ∧ store (worker_fetch sampleOrigin keepsAll cartRequest emptyState).2 = ∅
  ∧ trace (worker_fetch sampleOrigin keepsAll cartRequest emptyState).2
    = [OriginFetch cartRequest None].
Proof.
  destruct (bypass_only_fetches sampleOrigin keepsAll cartRequest emptyState
              shop {[ js "woocommerce_cart_hash" := js "abc123" ]}
              eq_refl eq_refl (or_intror (or_intror eq_refl)))
    as (_ & _ & Hstore & Htrace & Hresponse).
  split; [by apply Hresponse|]. by split.
Defined.

(** C8 as stated fails.  A POST request to /my-account/orders with the
    cookie woocommerce_cart_hash=% is bypass by its method, by its path and
    by the name of its cookie; yet the origin is not fetched, because
    parseCookies throws before the guards are reached, and the client gets
    the 500 response. *)
Lemma bypass_without_fetch :
  method brokenPostRequest ≠ js "GET"
  ∧ (∃ u, new_URL (url brokenPostRequest) = Ok u
          ∧ startsWith (pathname u) (js "/my-account") = true)
  ∧ parseCookies (cookieHeaderOf brokenPostRequest) = Throw URIError
  ∧ handleRequest brokenPostRequest = Return (Throw URIError)
  ∧ worker_fetch sampleOrigin keepsAll brokenPostRequest emptyState
    = (internalServerError, emptyState).
Proof.
  split; [done|]. split; [by eexists|]. by vm_compute.
Qed.

(** C2 as stated fails: a POST request is bypassed, and the response the
    client gets has neither CF-Cache-Status nor X-Cache-Key. *)
Lemma bypass_lacks_diagnostic_headers :
  classify postRequest = Ok Bypass
  ∧ Headers_get
      (headers (worker_fetch plainOrigin keepsAll postRequest emptyState).1)
      (js "CF-Cache-Status") = None
  ∧ Headers_get
      (headers (worker_fetch plainOrigin keepsAll postRequest emptyState).1)
      (js "X-Cache-Key") = None.
Proof. by vm_compute. Qed.

Lemma diagnostic_headers_witness :
  Headers_get
    (headers (worker_fetch sampleOrigin keepsAll widgetRequest warmState).1)
    (js "X-Cache-Key") = Some widgetKey
  ∧ Headers_get
      (headers (worker_fetch sampleOrigin keepsAll widgetRequest emptyState).1)
      (js "X-Worker-Cache") = Some (js "MISS")
  ∧ (worker_fetch sampleOrigin keepsAll cartRequest emptyState).1
    = pageResponse.
Proof.
  split_and!.
  - destruct (diagnostic_headers sampleOrigin keepsAll widgetRequest warmState)
      as [Hcacheable _].
    destruct (Hcacheable widgetKey eq_refl eq_refl) as [Hhit _].
    by destruct (Hhit _ eq_refl).
  - destruct (diagnostic_headers sampleOrigin keepsAll widgetRequest
                emptyState) as [Hcacheable _].
    destruct (Hcacheable widgetKey eq_refl eq_refl) as [_ Hmiss].
    by destruct (Hmiss pageResponse eq_refl eq_refl) as (_ & _ & ?).
  - destruct (diagnostic_headers sampleOrigin keepsAll cartRequest emptyState)
      as [_ Hbypass].
    by apply Hbypass.
Defined.

Lemma cache_hit_frame_witness :
  body (worker_fetch sampleOrigin keepsAll widgetRequest warmState).1
    = body pageResponse
  ∧ Headers_get
      (headers (worker_fetch sampleOrigin keepsAll widgetRequest warmState).1)
      (js "Server") = Some (js "nginx")
  ∧ Headers_get
      (headers (worker_fetch sampleOrigin keepsAll widgetRequest warmState).1)
      (js "X-Cache-Key") = Some widgetKey.
Proof.
  pose proof (cache_hit_frame sampleOrigin keepsAll widgetRequest warmState
                widgetKey
                (setHeader pageResponse (js "Cache-Control")
                   (js "public, max-age=86400"))
                eq_refl eq_refl eq_refl)
    as (Hbody & _ & _ & _ & Hkey & Hother & _).
  split; [exact Hbody|]. split; [|exact Hkey].
  by rewrite (Hother (js "Server")).
Defined.

(** ** The miss branch and failures *)

Lemma cachedCopy_Cache_Control (response : Response) :
  Headers_get (headers (cachedCopy response)) (js "Cache-Control")
  = Some (js "public, max-age=86400").
Proof.
  unfold cachedCopy. cbn [headers new_Response init_headers].
  apply Headers_get_set.
Qed.

(** X1.  A miss on a cacheable request whose origin response is successful
    (status 200-299) hands one put to the cache, under the request's cache
    key: a copy of the origin's response with its body, status and status
    text, with Cache-Control set to "public, max-age=86400" and every
    header of another name as the origin sent it.  The events are the
    match, the origin fetch with the cf options and that put.  The write is
    best effort: afterwards the store holds the copy under the key if the
    cache keeps it, and is as before if it does not; no other key
    changes. *)
Theorem miss_puts_successful_response origin keeps request st key fetched :
  classify request = Ok Cacheable → cacheKeyOf request = Ok key →
  store st !! key = None →
  origin request (Some missOptions) = Ok fetched →
  ok fetched = true →
  ∃ cached,
    trace (worker_fetch origin keeps request st).2
    = trace st ++ [CacheMatch key; OriginFetch request (Some missOptions);
                   CachePut key cached]
    ∧ body cached = body fetched
    ∧ status cached = status fetched
    ∧ statusText cached = statusText fetched
    ∧ Headers_get (headers cached) (js "Cache-Control")
      = Some (js "public, max-age=86400")
    ∧ (∀ name, sameName (js "Cache-Control") name = false →
         Headers_get (headers cached) name
         = Headers_get (headers fetched) name)
    ∧ store (worker_fetch origin keeps request st).2
      = (if keeps key cached then <[key := cached]> (store st)
         else store st).
Proof.
  intros Hc Hk Hs Ho Hok. unfold worker_fetch.
  rewrite (run_miss _ _ _ _ _ _ Hc Hk Hs Ho), Hok.
  exists (cachedCopy fetched). cbn [fst snd store trace].
  split_and!; try done.
  - apply cachedCopy_Cache_Control.
  - intros name Hname. unfold cachedCopy.
    cbn [headers new_Response init_headers].
    by apply Headers_get_set_other.
Qed.

Lemma miss_puts_successful_response_witness :
  ∃ cached,
    trace (worker_fetch sampleOrigin keepsNone widgetRequest emptyState).2
    = [CacheMatch widgetKey; OriginFetch widgetRequest (Some missOptions);
       CachePut widgetKey cached]
    ∧ body cached = body pageResponse
    ∧ Headers_get (headers cached) (js "Cache-Control")
      = Some (js "public, max-age=86400")
    ∧ Headers_get (headers cached) (js "Server") = Some (js "nginx")
    ∧ store (worker_fetch sampleOrigin keepsNone widgetRequest emptyState).2
      = ∅.
Proof.
  destruct (miss_puts_successful_response sampleOrigin keepsNone
              widgetRequest emptyState widgetKey pageResponse
              eq_refl eq_refl eq_refl eq_refl eq_refl)
    as (cached & Htrace & Hbody & _ & _ & Hcontrol & Hother & Hstore).
  exists cached. split; [exact Htrace|]. split; [exact Hbody|].
  split; [exact Hcontrol|]. split; [|exact Hstore].
  by rewrite (Hother (js "Server")).
Defined.

(** X2.  A miss whose origin response is not successful (status outside
    200-299) leaves the store as it was: the events are the match and the
    origin fetch only, and the client still gets the origin's status and
    body. *)
Theorem miss_does_not_store_failure origin keeps request st key fetched :
  classify request = Ok Cacheable → cacheKeyOf request = Ok key →
  store st !! key = None →
  origin request (Some missOptions) = Ok fetched →
  ok fetched = false →
  store (worker_fetch origin keeps request st).2 = store st
  ∧ trace (worker_fetch origin keeps request st).2
    = trace st ++ [CacheMatch key; OriginFetch request (Some missOptions)]
  ∧ status (worker_fetch origin keeps request st).1 = status fetched
  ∧ body (worker_fetch origin keeps request st).1 = body fetched.
Proof.
  intros Hc Hk Hs Ho Hok. unfold worker_fetch.
  by rewrite (run_miss _ _ _ _ _ _ Hc Hk Hs Ho), Hok.
Qed.

Lemma miss_does_not_store_failure_witness :
  store (worker_fetch notFoundOrigin keepsAll widgetRequest emptyState).2 = ∅
  ∧ status (worker_fetch notFoundOrigin keepsAll widgetRequest emptyState).1
    = 404.
Proof.
  destruct (miss_does_not_store_failure notFoundOrigin keepsAll widgetRequest
              emptyState widgetKey notFoundResponse
              eq_refl eq_refl eq_refl eq_refl eq_refl)
    as (Hstore & _ & Hstatus & _).
  split; [exact Hstore|exact Hstatus].
Defined.

(** X3.  The response returned on a miss is the origin's response with
    three headers set: body, status and status text are the origin's, every
    header named other than CF-Cache-Status, X-Cache-Key and X-Worker-Cache
    reads as the origin sent it, and the entries of other names are the
    origin's entries in their order.  In particular the Cache-Control written
    into the stored copy is not written into the response sent to the
    client. *)
Theorem miss_response_frame origin keeps request st key fetched :
  classify request = Ok Cacheable → cacheKeyOf request = Ok key →
  store st !! key = None →
  origin request (Some missOptions) = Ok fetched →
  let response := (worker_fetch origin keeps request st).1 in
  body response = body fetched
  ∧ status response = status fetched
  ∧ statusText response = statusText fetched
  ∧ (∀ name, sameName (js "CF-Cache-Status") name = false →
       sameName (js "X-Cache-Key") name = false →
       sameName (js "X-Worker-Cache") name = false →
       Headers_get (headers response) name
       = Headers_get (headers fetched) name)
  ∧ Headers_get (headers response) (js "Cache-Control")
    = Headers_get (headers fetched) (js "Cache-Control")
  ∧ filter (λ h, sameName h.1 (js "CF-Cache-Status") = false
                 ∧ sameName h.1 (js "X-Cache-Key") = false
                 ∧ sameName h.1 (js "X-Worker-Cache") = false)
      (headers response)
    = filter (λ h, sameName h.1 (js "CF-Cache-Status") = false
                   ∧ sameName h.1 (js "X-Cache-Key") = false
                   ∧ sameName h.1 (js "X-Worker-Cache") = false)
        (headers fetched).
Proof.
  intros Hc Hk Hs Ho response. subst response. unfold worker_fetch.
  rewrite (run_miss _ _ _ _ _ _ Hc Hk Hs Ho).
  response_fields. split_and!; try done.
  - intros name H1 H2 H3. by rewrite !Headers_get_set_other by done.
  - by rewrite !Headers_get_set_other by done.
  - by rewrite !Headers_set_frame by (simpl; tauto).
Qed.

Lemma miss_response_frame_witness :
  body (worker_fetch sampleOrigin keepsAll widgetRequest emptyState).1
  = body pageResponse
  ∧ Headers_get
      (headers (worker_fetch sampleOrigin keepsAll widgetRequest emptyState).1)
      (js "Server") = Some (js "nginx")
  ∧ Headers_get
      (headers (worker_fetch sampleOrigin keepsAll widgetRequest emptyState).1)
      (js "Cache-Control") = None.
Proof.
  destruct (miss_response_frame sampleOrigin keepsAll widgetRequest emptyState
              widgetKey pageResponse eq_refl eq_refl eq_refl eq_refl)
    as (Hbody & _ & _ & Hother & Hcontrol & _).
  split; [exact Hbody|]. split; [|exact Hcontrol].
  by rewrite (Hother (js "Server")).
Defined.

(** X4.  The copy that a miss puts is what a later hit serves.  After a
    miss with a successful origin response, a request with the same cache
    key whose match finds that copy (the cache kept it, and it is still
    there) gets the body and status fetched before, with CF-Cache-Status:
    HIT, X-Cache-Key set to the key and the Cache-Control of the copy; the
    origin is not contacted for it, whatever it would answer, and the store
    is not changed. *)
Theorem miss_then_hit origin keeps request st key fetched :
  classify request = Ok Cacheable → cacheKeyOf request = Ok key →
  store st !! key = None →
  origin request (Some missOptions) = Ok fetched →
  ok fetched = true →
  ∃ cached,
    trace (worker_fetch origin keeps request st).2
    = trace st ++ [CacheMatch key; OriginFetch request (Some missOptions);
                   CachePut key cached]
    ∧ ∀ origin' keeps' request' st',
        classify request' = Ok Cacheable → cacheKeyOf request' = Ok key →
        store st' !! key = Some cached →
        let response := (worker_fetch origin' keeps' request' st').1 in
        body response = body fetched
        ∧ status response = status fetched
        ∧ Headers_get (headers response) (js "CF-Cache-Status")
          = Some (js "HIT")
        ∧ Headers_get (headers response) (js "X-Cache-Key") = Some key
        ∧ Headers_get (headers response) (js "Cache-Control")
          = Some (js "public, max-age=86400")
        ∧ (worker_fetch origin' keeps' request' st').2
          = emit (CacheMatch key) st'.
Proof.
  intros Hc Hk Hs Ho Hok. exists (cachedCopy fetched). split.
  { unfold worker_fetch. by rewrite (run_miss _ _ _ _ _ _ Hc Hk Hs Ho), Hok. }
  intros origin' keeps' request' st' Hc' Hk' Hs' response. subst response.
  unfold worker_fetch. rewrite (run_hit _ _ _ _ _ _ Hc' Hk' Hs').
  cbn [fst snd hitResponse]. response_fields. split_and!; try done.
  - rewrite Headers_get_set_other by done. apply Headers_get_set.
  - apply Headers_get_set.
  - rewrite !Headers_get_set_other by done. apply Headers_get_set.
Qed.

Lemma miss_then_hit_witness :
  status (worker_fetch downOrigin keepsNone widgetRequest warmState).1 = 200
  ∧ Headers_get
      (headers (worker_fetch downOrigin keepsNone widgetRequest warmState).1)
      (js "CF-Cache-Status") = Some (js "HIT").
Proof.
  destruct (miss_then_hit sampleOrigin keepsAll widgetRequest emptyState
              widgetKey pageResponse
              eq_refl eq_refl eq_refl eq_refl eq_refl)
    as (cached & Htrace & Hhit).
  assert (cached = cachedCopy pageResponse) as ->.
  { apply (inj (λ l, trace emptyState ++ l)) in Htrace. by injection Htrace. }
  destruct (Hhit downOrigin keepsNone widgetRequest warmState
              eq_refl eq_refl eq_refl)
    as (_ & Hstatus & Hheader & _).
  split; [exact Hstatus|exact Hheader].
Defined.

(** X5.  When the fetch of a miss fails, the client gets the 500 response
    of the exported handler, and nothing is stored: the events are the match
    and the attempted origin fetch. *)
Theorem miss_origin_failure origin keeps request st key e :
  classify request = Ok Cacheable → cacheKeyOf request = Ok key →
  store st !! key = None →
  origin request (Some missOptions) = Throw e →
  (worker_fetch origin keeps request st).1 = internalServerError
  ∧ store (worker_fetch origin keeps request st).2 = store st
  ∧ trace (worker_fetch origin keeps request st).2
    = trace st ++ [CacheMatch key; OriginFetch request (Some missOptions)].
Proof.
  intros Hc Hk Hs Ho. unfold worker_fetch.
  by rewrite (run_miss_failure _ _ _ _ _ _ Hc Hk Hs Ho).
Qed.

Lemma miss_origin_failure_witness :
  (worker_fetch downOrigin keepsAll widgetRequest emptyState).1
  = internalServerError
  ∧ store (worker_fetch downOrigin keepsAll widgetRequest emptyState).2 = ∅.
Proof.
  destruct (miss_origin_failure downOrigin keepsAll widgetRequest emptyState
              widgetKey TypeError eq_refl eq_refl eq_refl eq_refl)
    as (Hresponse & Hstore & _).
  split; [exact Hresponse|exact Hstore].
Defined.

(** X6.  A request whose Cookie header makes parseCookies throw is
    answered with the 500 response without any effect: no origin fetch, no
    cache lookup, no store change.  This holds for every method and path,
    since the cookies are parsed before the bypass guards. *)
Theorem malformed_cookie_no_effect origin keeps request st e :
  parseCookies (cookieHeaderOf request) = Throw e →
  worker_fetch origin keeps request st = (internalServerError, st)
  ∧ status internalServerError = 500.
Proof.
  intros Hcookies. split; [|done]. unfold worker_fetch.
  destruct (classify request) as [d|e'] eqn:Hclass.
  - unfold classify in Hclass. rewrite Hcookies in Hclass.
    by destruct (new_URL (url request)).
  - by rewrite (run_throws _ _ _ _ _ Hclass).
Qed.

Lemma malformed_cookie_no_effect_witness :
  worker_fetch sampleOrigin keepsAll brokenCookieRequest emptyState
  = (internalServerError, emptyState)
  ∧ status internalServerError = 500.
Proof.
  exact (malformed_cookie_no_effect sampleOrigin keepsAll brokenCookieRequest
           emptyState URIError eq_refl).
Defined.

Lemma worker_fetch_cases origin keeps request st :
  (worker_fetch origin keeps request st).2 = st
  ∨ (worker_fetch origin keeps request st).2
    = emit (OriginFetch request None) st
  ∨ ∃ key, cacheKeyOf request = Ok key ∧
      ((is_Some (store st !! key)
        ∧ (worker_fetch origin keeps request st).2
          = emit (CacheMatch key) st)
       ∨ (store st !! key = None
          ∧ (worker_fetch origin keeps request st).2
            = {| store := store st;
                 trace := trace st
                          ++ [CacheMatch key;
                              OriginFetch request (Some missOptions)] |})
       ∨ ∃ fetched,
           store st !! key = None ∧ ok fetched = true
           ∧ origin request (Some missOptions) = Ok fetched
           ∧ (worker_fetch origin keeps request st).2
             = {| store := if keeps key (cachedCopy fetched)
                           then <[key := cachedCopy fetched]> (store st)
                           else store st;
                  trace := trace st
                           ++ [CacheMatch key;
                               OriginFetch request (Some missOptions);
                               CachePut key (cachedCopy fetched)] |}).
Proof.
  unfold worker_fetch.
  destruct (classify request) as [[]|e] eqn:Hc.
  - right; left. by rewrite (run_bypass _ _ _ _ Hc); destruct (origin _ _).
  - destruct (cacheKeyOf request) as [key|e] eqn:Hk.
    2:{ left. by rewrite (run_key_throws _ _ _ _ _ Hc Hk). }
    right; right. exists key. split; [done|].
    destruct (store st !! key) as [stored|] eqn:Hs.
    { left. by rewrite (run_hit _ _ _ _ _ _ Hc Hk Hs). }
    right. destruct (origin request (Some missOptions)) as [fetched|e] eqn:Ho.
    + rewrite (run_miss _ _ _ _ _ _ Hc Hk Hs Ho).
      destruct (ok fetched) eqn:Hok; [right|left]; eauto 10.
    + left. by rewrite (run_miss_failure _ _ _ _ _ _ Hc Hk Hs Ho).
  - left. by rewrite (run_throws _ _ _ _ _ Hc).
Qed.

(** X7.  What one request does, for every origin, cache and state: nothing
    at all (the handling threw before any effect); one origin fetch without
    options (bypass); one match of the request's cache key that found an
    entry, and nothing else (hit); a match that found nothing followed by
    one origin fetch with the cf options; or match, fetch and one put of a
    successful response under that key.  The put is best effort: the store
    then holds the response under the key if the cache keeps it, and is as
    before if not.  The worker never fetches twice, never puts without a
    match of the same key that found nothing, and never removes an
    entry. *)
Theorem dispatcher_effects origin keeps request st :
  let st' := (worker_fetch origin keeps request st).2 in
  (trace st' = trace st ∧ store st' = store st)
  ∨ (trace st' = trace st ++ [OriginFetch request None]
     ∧ store st' = store st)
  ∨ ∃ key, cacheKeyOf request = Ok key ∧
      ((trace st' = trace st ++ [CacheMatch key]
        ∧ store st' = store st ∧ is_Some (store st !! key))
       ∨ (trace st' = trace st ++ [CacheMatch key;
                                   OriginFetch request (Some missOptions)]
          ∧ store st' = store st ∧ store st !! key = None)
       ∨ ∃ cached,
           trace st' = trace st ++ [CacheMatch key;
                                    OriginFetch request (Some missOptions);
                                    CachePut key cached]
           ∧ store st' = (if keeps key cached
                          then <[key := cached]> (store st) else store st)
           ∧ store st !! key = None ∧ ok cached = true).
Proof.
  intros st'. subst st'.
  destruct (worker_fetch_cases origin keeps request st)
    as [->|[->|(key & Hk & [[Hs ->]|[[Hs ->]|(fetched & Hs & Hok & _ & ->)]])]].
  - by left.
  - right; by left.
  - right; right. exists key. split; [done|]. by left.
  - right; right. exists key. split; [done|]. right; by left.
  - right; right. exists key. split; [done|]. right; right.
    by exists (cachedCopy fetched).
Qed.

(** ** Requests in flight together *)

Lemma allPuts_impl {A} (P Q : jsstring → Response → Prop) (p : prog A) :
  (∀ key response, P key response → Q key response) →
  allPuts P p → allPuts Q p.
Proof.
  intros HPQ. induction p as [r|request cf k IH|key k IH|key response k IH];
    simpl; [done|by eauto|by eauto|].
  intros [HP Hk]. split; [by apply HPQ|by apply IH].
Qed.

(** Every put of a handler is a successful response with the worker's
    Cache-Control, under the cache key of its request. *)
Lemma handleRequest_allPuts (request : Request) :
  allPuts (λ key response,
             ok response = true
             ∧ Headers_get (headers response) (js "Cache-Control")
               = Some (js "public, max-age=86400")
             ∧ cacheKeyOf request = Ok key)
    (handleRequest request).
Proof.
  destruct (classify request) as [[]|e] eqn:Hc.
  - by rewrite (handleRequest_bypass _ Hc).
  - destruct (cacheKeyOf request) as [key|e] eqn:Hk.
    2:{ by rewrite (handleRequest_key_throws _ _ Hc Hk). }
    destruct (handleRequest_cacheable _ _ Hc Hk)
      as (k & k' & -> & Hhit & Hmiss & Hthrow & Hfetched).
    intros [stored|]; [by rewrite Hhit|]. rewrite Hmiss.
    intros [fetched|e]; [|by rewrite Hthrow]. rewrite Hfetched.
    destruct (ok fetched) eqn:Hok; [|done]. split; [|done].
    split; [done|]. split; [apply cachedCopy_Cache_Control|done].
  - by rewrite (handleRequest_throws _ _ Hc).
Qed.

Lemma toAwait_allPuts (P : jsstring → Response → Prop) (p : prog Response) :
  allPuts P p →
  Forall (λ put, P put.1 put.2) (toAwait p).1 ∧ allPuts P (toAwait p).2.
Proof.
  induction p as [r|request cf k IH|key k IH|key response k IH]; try done.
  intros [HP Hk]. destruct (IH Hk) as [Hputs Hrest]. simpl.
  destruct (toAwait k) as [puts p']. split; [by apply Forall_cons_2|done].
Qed.

Lemma runOn_worldKeeps (P : jsstring → Response → Prop) (w : world)
    (task : option nat) (request : Request) (p : prog Response)
    (events : list event) :
  worldKeeps P w → allPuts P p →
  worldKeeps P (runOn w task request p events).
Proof.
  intros (Hcache & Hpending & Htasks) Hp. unfold runOn.
  destruct (toAwait_allPuts P p Hp) as [Hputs Hrest].
  destruct (toAwait p) as [puts p']. split; [done|]. split.
  - by apply Forall_app.
  - cbn [tasks]. destruct task as [i|].
    + by apply Forall_insert.
    + apply Forall_app. split; [done|]. by apply Forall_singleton.
Qed.

Lemma step_worldKeeps (P : jsstring → Response → Prop) (w : world)
    (m : move) :
  (∀ request, m = Arrive request → allPuts P (handleRequest request)) →
  worldKeeps P w → worldKeeps P (step w m).
Proof.
  intros Harrive Hw. pose proof Hw as (Hcache & Hpending & Htasks).
  destruct m as [request|i|i answer|j kept|key]; simpl.
  - apply runOn_worldKeeps; [done|]. by apply Harrive.
  - destruct (tasks w !! i) as [[request p]|] eqn:Hi; [|done].
    destruct p as [r|request' cf k|key k|key response k]; try done.
    apply runOn_worldKeeps; [done|].
    eapply Forall_lookup_1 in Htasks; [|done]. apply Htasks.
  - destruct (tasks w !! i) as [[request p]|] eqn:Hi; [|done].
    destruct p as [r|request' cf k|key k|key response k]; try done.
    apply runOn_worldKeeps; [done|].
    eapply Forall_lookup_1 in Htasks; [|done]. apply Htasks.
  - destruct (pending w !! j) as [[key response]|] eqn:Hj; [|done].
    split; [|split; [by apply Forall_delete|done]]. cbn [cache].
    destruct kept; [|done]. apply map_Forall_insert_2; [|done].
    eapply Forall_lookup_1 in Hpending; [|done]. apply Hpending.
  - split; [|done]. cbn [cache]. by apply map_Forall_delete.
Qed.

Lemma play_worldKeeps (P : jsstring → Response → Prop) (moves : list move)
    (w : world) :
  (∀ request, Arrive request ∈ moves → allPuts P (handleRequest request)) →
  worldKeeps P w → worldKeeps P (play moves w).
Proof.
  unfold play. revert w. induction moves as [|m moves IH]; intros w Harrive Hw;
    [done|].
  simpl. apply IH.
  - intros request Hin. apply Harrive. by right.
  - apply step_worldKeeps; [|done]. intros request ->. apply Harrive. by left.
Qed.

(** X8.  Invariant of the cache under the worker.  Whatever requests arrive,
    however their handlers interleave at the awaits, whatever the origin
    answers, whichever puts the cache keeps and whichever entries it drops:
    every entry of the cache is a successful response (status 200-299) that
    carries Cache-Control: public, max-age=86400 and sits under the cache
    key of one of the requests received. *)
Theorem store_stays_fresh moves k r :
  cache (play moves emptyWorld) !! k = Some r →
  ok r = true
  ∧ Headers_get (headers r) (js "Cache-Control")
    = Some (js "public, max-age=86400")
  ∧ ∃ request, Arrive request ∈ moves ∧ cacheKeyOf request = Ok k.
Proof.
  intros Hr.
  set (P := λ (key : jsstring) (response : Response),
         ok response = true
         ∧ Headers_get (headers response) (js "Cache-Control")
           = Some (js "public, max-age=86400")
         ∧ ∃ request, Arrive request ∈ moves ∧ cacheKeyOf request = Ok key).
  assert (worldKeeps P (play moves emptyWorld)) as (Hcache & _).
  { apply play_worldKeeps.
    - intros request Hin.
      eapply allPuts_impl; [|apply handleRequest_allPuts].
      intros key response (Hok & Hcontrol & Hkey). unfold P. eauto.
    - split; [apply map_Forall_empty|]. by split. }
  exact (Hcache k r Hr).
Qed.

Lemma store_stays_fresh_witness :
  ok (cachedCopy pageResponse) = true
  ∧ Headers_get (headers (cachedCopy pageResponse)) (js "Cache-Control")
    = Some (js "public, max-age=86400")
  ∧ ∃ request,
      Arrive request ∈ [Arrive cartRequest; Arrive widgetRequest;
                        CacheAnswers 1; OriginAnswers 0 (Ok notFoundResponse);
                        OriginAnswers 1 (Ok pageResponse); Settle 0 true]
      ∧ cacheKeyOf request = Ok widgetKey.
Proof.
  exact (store_stays_fresh
           [Arrive cartRequest; Arrive widgetRequest;
            CacheAnswers 1; OriginAnswers 0 (Ok notFoundResponse);
            OriginAnswers 1 (Ok pageResponse); Settle 0 true]
           widgetKey (cachedCopy pageResponse) eq_refl).
Defined.

Lemma resumes_trans {A} (p q r : prog A) :
  resumes p q → resumes q r → resumes p r.
Proof.
  induction 1 as [p|request cf k answer q _ IH|key k found q _ IH
                  |key response k q _ IH]; intros Hqr; [done|..].
  - eapply resumes_fetch. by apply IH.
  - eapply resumes_match. by apply IH.
  - apply resumes_put. by apply IH.
Qed.

Lemma resumes_toAwait (p : prog Response) : resumes p (toAwait p).2.
Proof.
  induction p as [r|request cf k IH|key k IH|key response k IH];
    try apply resumes_refl.
  simpl. destruct (toAwait k) as [puts p']. by apply resumes_put.
Qed.

Lemma runOn_resumes (w : world) (task : option nat) (request : Request)
    (p : prog Response) (events : list event) :
  Forall (λ t, resumes (handleRequest t.1) t.2) (tasks w) →
  resumes (handleRequest request) p →
  Forall (λ t, resumes (handleRequest t.1) t.2)
    (tasks (runOn w task request p events)).
Proof.
  intros Htasks Hp. unfold runOn.
  pose proof (resumes_toAwait p) as Hrest.
  destruct (toAwait p) as [puts p']. cbn [tasks].
  assert (resumes (handleRequest request) p') as Hp'
    by by eapply resumes_trans.
  destruct task as [i|].
  - by apply Forall_insert.
  - apply Forall_app. split; [done|]. by apply Forall_singleton.
Qed.

Lemma play_resumes (moves : list move) (w : world) :
  Forall (λ t, resumes (handleRequest t.1) t.2) (tasks w) →
  Forall (λ t, resumes (handleRequest t.1) t.2) (tasks (play moves w)).
Proof.
  unfold play. revert w. induction moves as [|m moves IH]; intros w Hw; [done|].
  simpl. apply IH.
  destruct m as [request|i|i answer|j kept|key]; simpl; try done.
  - apply runOn_resumes; [done|apply resumes_refl].
  - destruct (tasks w !! i) as [[request p]|] eqn:Hi; [|done].
    destruct p as [r|request' cf k|key k|key response k]; try done.
    apply runOn_resumes; [done|].
    eapply Forall_lookup_1 in Hw; [|done]. simpl in Hw.
    eapply resumes_trans; [done|]. eapply resumes_match, resumes_refl.
  - destruct (tasks w !! i) as [[request p]|] eqn:Hi; [|done].
    destruct p as [r|request' cf k|key k|key response k]; try done.
    apply runOn_resumes; [done|].
    eapply Forall_lookup_1 in Hw; [|done]. simpl in Hw.
    eapply resumes_trans; [done|]. eapply resumes_fetch, resumes_refl.
  - by destruct (pending w !! j) as [[key response]|].
Qed.

(** The result of a handler that ran to its end with some answers of the
    platform is the result of the handler run on its own against a store
    and an origin that give those answers. *)
Lemma resumes_Return (request : Request) (r : result Response) :
  resumes (handleRequest request) (Return r) →
  ∃ origin st, ∀ keeps, (run origin keeps (handleRequest request) st).1 = r.
Proof.
  intros Hres. set (st0 := {| store := ∅; trace := [] |}).
  destruct (classify request) as [[]|e] eqn:Hc.
  - rewrite (handleRequest_bypass _ Hc) in Hres.
    inversion Hres as [| ? ? ? answer ? Hrest| |]; subst.
    inversion Hrest; subst.
    exists (λ _ _, r), st0. intros keeps. by rewrite (run_bypass _ _ _ _ Hc).
  - destruct (cacheKeyOf request) as [key|e] eqn:Hk.
    2:{ rewrite (handleRequest_key_throws _ _ Hc Hk) in Hres.
        inversion Hres; subst. exists (λ _ _, Throw e), st0. intros keeps.
        by rewrite (run_key_throws _ _ _ _ _ Hc Hk). }
    destruct (handleRequest_cacheable _ _ Hc Hk)
      as (k & k' & Htree & Hhit & Hmiss & Hthrow & Hfetched).
    rewrite Htree in Hres. inversion Hres as [| |? ? found ? Hrest|]; subst.
    destruct found as [stored|].
    + rewrite Hhit in Hrest. inversion Hrest; subst.
      exists (λ _ _, Throw TypeError),
        {| store := {[ key := stored ]}; trace := [] |}.
      intros keeps.
      rewrite (run_hit _ _ _ _ key stored Hc Hk); [done|].
      apply lookup_singleton_eq.
    + rewrite Hmiss in Hrest.
      inversion Hrest as [| ? ? ? answer ? Hrest'| |]; subst.
      destruct answer as [fetched|e].
      * exists (λ _ _, Ok fetched), st0. intros keeps.
        rewrite (run_miss _ _ _ _ key fetched Hc Hk); [|done..].
        rewrite Hfetched in Hrest'. destruct (ok fetched).
        -- inversion Hrest' as [| | |? ? ? ? Hend]; subst.
           by inversion Hend; subst.
        -- by inversion Hrest'; subst.
      * rewrite Hthrow in Hrest'. inversion Hrest'; subst.
        exists (λ _ _, Throw e), st0. intros keeps.
        by rewrite (run_miss_failure _ _ _ _ key e Hc Hk).
  - rewrite (handleRequest_throws _ _ Hc) in Hres. inversion Hres; subst.
    exists (λ _ _, Throw e), st0. intros keeps.
    by rewrite (run_throws _ _ _ _ _ Hc).
Qed.

(** Interleaving adds no response.  Whatever the schedule, the result of a
    request that has run to its end is the result of that request run on
    its own, against a store that gives what its match found and an origin
    that gives what its fetch was answered. *)
Lemma interleaving_adds_no_response (moves : list move) (i : nat)
    (request : Request) (r : result Response) :
  tasks (play moves emptyWorld) !! i = Some (request, Return r) →
  ∃ origin st, ∀ keeps, (run origin keeps (handleRequest request) st).1 = r.
Proof.
  intros Hi. apply resumes_Return.
  pose proof (play_resumes moves emptyWorld (Forall_nil_2 _)) as Hall.
  eapply Forall_lookup_1 in Hall; [|done]. exact Hall.
Qed.

(** X9.  The worker does not serialise the requests for one key.  When two
    cacheable requests with the same cache key are in flight together and
    both matches are answered before either put is settled, both miss, both
    fetch the origin and both put their copy; each client gets the response
    of its own fetch, and when the cache keeps both puts the later one
    replaces the earlier. *)
Theorem overlapping_misses_both_put request request' key fetched fetched' :
  classify request = Ok Cacheable → cacheKeyOf request = Ok key →
  classify request' = Ok Cacheable → cacheKeyOf request' = Ok key →
  ok fetched = true → ok fetched' = true →
  let w := play [Arrive request; Arrive request';
                 CacheAnswers 0; CacheAnswers 1;
                 OriginAnswers 0 (Ok fetched); OriginAnswers 1 (Ok fetched');
                 Settle 0 true; Settle 0 true] emptyWorld in
  log w = [CacheMatch key; CacheMatch key;
           OriginFetch request (Some missOptions);
           CachePut key (cachedCopy fetched);
           OriginFetch request' (Some missOptions);
           CachePut key (cachedCopy fetched')]
  ∧ tasks w = [(request, Return (Ok (missResponse fetched key)));
               (request', Return (Ok (missResponse fetched' key)))]
  ∧ cache w !! key = Some (cachedCopy fetched')
  ∧ pending w = [].
Proof.
  intros Hc Hk Hc' Hk' Hok Hok' w. subst w.
  destruct (handleRequest_cacheable _ _ Hc Hk)
    as (k1 & k1' & Htree & _ & Hmiss & _ & Hfetched).
  destruct (handleRequest_cacheable _ _ Hc' Hk')
    as (k2 & k2' & Htree' & _ & Hmiss' & _ & Hfetched').
  unfold play. cbn [foldl].
  set (put := (key, cachedCopy fetched)).
  set (put' := (key, cachedCopy fetched')).
  set (done1 := (request, Return (Ok (missResponse fetched key)))).
  set (done2 := (request', Return (Ok (missResponse fetched' key)))).
  set (fetch1 := OriginFetch request (Some missOptions)).
  set (fetch2 := OriginFetch request' (Some missOptions)).
  replace (step emptyWorld (Arrive request))
    with {| cache := ∅; pending := [];
            tasks := [(request, Await_match key k1)]; log := [] |}
    by (simpl; by rewrite Htree).
  replace (step _ (Arrive request'))
    with {| cache := ∅; pending := [];
            tasks := [(request, Await_match key k1);
                      (request', Await_match key k2)];
            log := [] |}
    by (simpl; by rewrite Htree').
  replace (step _ (CacheAnswers 0))
    with {| cache := ∅; pending := [];
            tasks := [(request, Await_fetch request (Some missOptions) k1');
                      (request', Await_match key k2)];
            log := [CacheMatch key] |}
    by (simpl; by rewrite lookup_empty, Hmiss).
  replace (step _ (CacheAnswers 1))
    with {| cache := ∅; pending := [];
            tasks := [(request, Await_fetch request (Some missOptions) k1');
                      (request', Await_fetch request' (Some missOptions) k2')];
            log := [CacheMatch key; CacheMatch key] |}
    by (simpl; by rewrite lookup_empty, Hmiss').
  replace (step _ (OriginAnswers 0 (Ok fetched)))
    with {| cache := ∅; pending := [put];
            tasks := [done1;
                      (request', Await_fetch request' (Some missOptions) k2')];
            log := [CacheMatch key; CacheMatch key; fetch1;
                    CachePut key (cachedCopy fetched)] |}
    by (simpl; by rewrite Hfetched, Hok).
  replace (step _ (OriginAnswers 1 (Ok fetched')))
    with {| cache := ∅; pending := [put; put'];
            tasks := [done1; done2];
            log := [CacheMatch key; CacheMatch key; fetch1;
                    CachePut key (cachedCopy fetched); fetch2;
                    CachePut key (cachedCopy fetched')] |}
    by (simpl; by rewrite Hfetched', Hok').
  simpl. split_and!; try done. apply lookup_insert_eq.
Qed.

Lemma overlapping_misses_both_put_witness :
  cache (play [Arrive widgetRequest; Arrive widgetRequest;
               CacheAnswers 0; CacheAnswers 1;
               OriginAnswers 0 (Ok pageResponse);
               OriginAnswers 1 (Ok plainResponse);
               Settle 0 true; Settle 0 true] emptyWorld) !! widgetKey
  = Some (cachedCopy plainResponse).
Proof.
  destruct (overlapping_misses_both_put widgetRequest widgetRequest widgetKey
              pageResponse plainResponse
              eq_refl eq_refl eq_refl eq_refl eq_refl eq_refl)
    as (_ & _ & Hcache & _).
  exact Hcache.
Defined.

(** ** More on the cookie parser *)

Lemma parseCookies_split (cookieHeader : jsstring) :
  parseCookies cookieHeader = forEachCookie ∅ (split 59 cookieHeader).
Proof. by destruct cookieHeader. Qed.

Lemma split_nonempty (sep : N) (s : jsstring) : split sep s ≠ [].
Proof.
  destruct s as [|c s]; [done|]. simpl.
  destruct (c =? sep); [done|]. by destruct (split sep s).
Qed.

Lemma split_snoc (sep : N) (s f : jsstring) :
  sep ∉ f → split sep (s ++ sep :: f) = split sep s ++ [f].
Proof.
  intros Hf. induction s as [|c s IH]; simpl.
  - rewrite N.eqb_refl. by rewrite split_notin by done.
  - destruct (c =? sep); [by rewrite IH|]. rewrite IH.
    pose proof (split_nonempty sep s). by destruct (split sep s).
Qed.

Lemma forEachCookie_app cookies fragments fragments' :
  forEachCookie cookies (fragments ++ fragments')
  = cookies' ← forEachCookie cookies fragments;
    forEachCookie cookies' fragments'.
Proof.
  revert cookies. induction fragments as [|f rest IH]; intros cookies; [done|].
  simpl. destruct (parseCookie cookies f) as [c1|]; [|done]. apply IH.
Qed.

Lemma parseCookies_snoc (cookieHeader cookie : jsstring) :
  59 ∉ cookie →
  parseCookies (cookieHeader ++ js ";" ++ cookie)
  = cookies ← parseCookies cookieHeader; parseCookie cookies cookie.
Proof.
  intros Hcookie. rewrite !parseCookies_split. change (js ";" ++ cookie) with (59 :: cookie).
  rewrite split_snoc by done. rewrite forEachCookie_app.
  destruct (forEachCookie ∅ (split 59 cookieHeader)) as [cookies|]; [|done].
  simpl. by destruct (parseCookie cookies cookie).
Qed.

Lemma parseCookie_pair cookies cookie name value decoded :
  trim cookie = name ++ js "=" ++ value →
  61 ∉ name → 61 ∉ value → name ≠ [] → value ≠ [] →
  name ≠ js "__proto__" →
  decodeURIComponent value = Ok decoded →
  parseCookie cookies cookie = Ok (<[name := decoded]> cookies).
Proof.
  intros Htrim Hname Hvalue Hn Hv Hproto Hdec. unfold parseCookie.
  rewrite Htrim. change (js "=" ++ value) with (61 :: value).
  rewrite split_app, split_notin by done. simpl.
  apply truthy_true in Hn, Hv. rewrite Hn, Hv, Hdec. simpl.
  unfold setProperty, str_eqb. by rewrite bool_decide_eq_false_2.
Qed.

(** X10.  parseCookies reads the header from left to right and a later
    cookie replaces an earlier one of the same name: appending ";" and a
    fragment that trims to name=value (both non-empty and free of '=', the
    name other than __proto__, the value decodable) to a header that parses
    to a jar gives that jar with name set to the decoded value. *)
Theorem parseCookies_last_wins cookieHeader cookies cookie name value decoded :
  parseCookies cookieHeader = Ok cookies →
  59 ∉ cookie →
  trim cookie = name ++ js "=" ++ value →
  61 ∉ name → 61 ∉ value → name ≠ [] → value ≠ [] →
  name ≠ js "__proto__" →
  decodeURIComponent value = Ok decoded →
  parseCookies (cookieHeader ++ js ";" ++ cookie)
  = Ok (<[name := decoded]> cookies).
Proof.
  intros Hheader Hcookie Htrim Hname Hvalue Hn Hv Hproto Hdec.
  rewrite parseCookies_snoc, Hheader by done.
  by apply parseCookie_pair with value.
Qed.

Lemma parseCookies_last_wins_witness :
  parseCookies (js "a=1" ++ js ";" ++ js " a=2")
  = Ok (<[js "a" := js "2"]> {[ js "a" := js "1" ]}).
Proof.
  assert (59 ∉ js " a=2") as Hcookie by compute_done.
  assert (61 ∉ js "a") as Hname by compute_done.
  assert (61 ∉ js "2") as Hvalue by compute_done.
  assert (js "a" ≠ []) as Hn by done.
  assert (js "2" ≠ []) as Hv by done.
  assert (js "a" ≠ js "__proto__") as Hproto by done.
  exact (parseCookies_last_wins (js "a=1") {[ js "a" := js "1" ]}
           (js " a=2") (js "a") (js "2") (js "2")
           eq_refl Hcookie eq_refl Hname Hvalue Hn Hv Hproto eq_refl).
Defined.

Lemma trim_snoc_equals (name : jsstring) :
  trim (name ++ [61]) = trimStart name ++ [61].
Proof.
  assert (trimStart (name ++ [61]) = trimStart name ++ [61]) as Hstart.
  { induction name as [|c name IH]; [done|]. simpl.
    by destruct (isWhiteSpace c). }
  unfold trim, trimEnd. rewrite Hstart, reverse_app. simpl.
  by rewrite reverse_cons, reverse_involutive.
Qed.

Lemma parseCookie_empty_value cookies (name : jsstring) :
  61 ∉ name → parseCookie cookies (name ++ js "=") = Ok cookies.
Proof.
  intros Hname. unfold parseCookie. change (js "=") with [61].
  rewrite trim_snoc_equals, split_app.
  - simpl. by rewrite andb_false_r.
  - intros Hin. by apply Hname, trimStart_subset.
Qed.

Lemma forEachCookie_empty_values (names : list jsstring) cookies :
  Forall (λ n, 61 ∉ n) names →
  forEachCookie cookies ((λ n, n ++ js "=") <$> names) = Ok cookies.
Proof.
  induction 1 as [|n names Hn _ IH]; [done|]. simpl.
  by rewrite parseCookie_empty_value.
Qed.

(** X11.  Fragments that leave the jar as it is: a fragment without '=',
    a fragment that trims to name= (empty value), and a fragment whose
    trimmed text starts with '=' (empty name).  None of them is decoded, so
    none of them can make parseCookies throw. *)
Theorem parseCookie_dropped cookies cookie :
  61 ∉ cookie
  ∨ (∃ name, trim cookie = name ++ js "=" ∧ 61 ∉ name)
  ∨ (∃ rest, trim cookie = js "=" ++ rest) →
  parseCookie cookies cookie = Ok cookies.
Proof.
  unfold parseCookie. intros [Hno|[(name & -> & Hname)|(rest & ->)]].
  - rewrite split_notin; [done|]. intros Hin. by apply Hno, trim_subset.
  - change (js "=") with [61]. rewrite split_app by done.
    simpl. by rewrite andb_false_r.
  - simpl. by destruct (split 61 rest).
Qed.

Lemma parseCookie_dropped_witness :
  parseCookie {[ js "a" := js "1" ]} (js " =%") = Ok {[ js "a" := js "1" ]}.
Proof.
  apply (parseCookie_dropped {[ js "a" := js "1" ]} (js " =%")).
  right; right. by exists (js "%").
Defined.

(** X12.  Cookies with an empty value are not in the jar and so do not
    trigger the bypass, whatever their names: a GET request outside
    /my-account whose Cookie header consists of fragments name= only (for
    example woocommerce_cart_hash=) parses to the empty jar and is handled
    as cacheable. *)
Theorem empty_values_do_not_bypass (request : Request) (u : URL)
    (names : list jsstring) :
  names ≠ [] → Forall (λ n, (59 ∉ n) ∧ (61 ∉ n)) names →
  cookieHeaderOf request = join (js ";") ((λ n, n ++ js "=") <$> names) →
  new_URL (url request) = Ok u →
  method request = js "GET" →
  startsWith (pathname u) (js "/my-account") = false →
  parseCookies (cookieHeaderOf request) = Ok ∅
  ∧ classify request = Ok Cacheable.
Proof.
  intros Hne Hnames Hheader Hu Hmethod Hpath.
  assert (parseCookies (cookieHeaderOf request) = Ok ∅) as Hjar.
  { rewrite Hheader, parseCookies_split. change (js ";") with [59].
    rewrite split_join.
    - apply forEachCookie_empty_values. eapply Forall_impl; [done|].
      by intros n [_ ?].
    - by destruct names.
    - apply Forall_fmap. eapply Forall_impl; [done|]. intros n [H59 _].
      simpl. rewrite elem_of_app. intros [?|Hin]; [done|].
      by apply list_elem_of_singleton in Hin. }
  split; [done|]. apply classify_Cacheable. by eexists u, _.
Qed.

Lemma empty_values_do_not_bypass_witness :
  parseCookies (cookieHeaderOf emptyCartRequest) = Ok ∅
  ∧ classify emptyCartRequest = Ok Cacheable.
Proof.
  assert ([js "woocommerce_cart_hash"; js "wp_woocommerce_session_1"] ≠ [])
    as Hne by done.
  assert (Forall (λ n, (59 ∉ n) ∧ (61 ∉ n))
            [js "woocommerce_cart_hash"; js "wp_woocommerce_session_1"])
    as Hnames.
  { apply Forall_cons_2; [split; compute_done|].
    apply Forall_cons_2; [split; compute_done|]. apply Forall_nil_2. }
  exact (empty_values_do_not_bypass emptyCartRequest shop
           [js "woocommerce_cart_hash"; js "wp_woocommerce_session_1"]
           Hne Hnames eq_refl eq_refl eq_refl eq_refl).
Defined.

Lemma forEachCookie_no_proto fragments cookies cookies' :
  cookies !! js "__proto__" = None →
  forEachCookie cookies fragments = Ok cookies' →
  cookies' !! js "__proto__" = None.
Proof.
  revert cookies. induction fragments as [|f rest IH]; intros cookies Hinv.
  - by intros [= <-].
  - simpl. destruct (parseCookie cookies f) as [c1|] eqn:Hc1; [|done].
    simpl. apply IH. revert Hc1. unfold parseCookie.
    destruct (split 61 (trim f) !! 0%nat) as [name|]; [|by intros [= <-]].
    destruct (split 61 (trim f) !! 1%nat) as [value|]; [|by intros [= <-]].
    destruct (truthy name && truthy value); [|by intros [= <-]].
    destruct (decodeURIComponent value) as [v|]; [|done]. simpl.
    intros [= <-]. unfold setProperty, str_eqb. case_bool_decide; [done|].
    by rewrite lookup_insert_ne.
Qed.

(** X13.  The jar parseCookies returns never has an own property
    __proto__: a cookie of that name is not recorded (the assignment of a
    string to __proto__ on a plain object stores nothing), and the other
    cookies of the header are parsed as usual. *)
Theorem parseCookies_no_proto cookieHeader cookies :
  parseCookies cookieHeader = Ok cookies →
  cookies !! js "__proto__" = None.
Proof.
  rewrite parseCookies_split. by apply forEachCookie_no_proto.
Qed.

Lemma parseCookies_no_proto_witness :
  parseCookies (js "__proto__=x; a=1") = Ok {[ js "a" := js "1" ]}
  ∧ ({[ js "a" := js "1" ]} : gmap jsstring jsstring) !! js "__proto__" = None.
Proof.
  split; [reflexivity|].
  exact (parseCookies_no_proto (js "__proto__=x; a=1")
           {[ js "a" := js "1" ]} eq_refl).
Defined.

(** ** What the cache key and the bypass depend on *)

Lemma generateCacheKey_cookieOrDefault (u : URL)
    (cookies cookies' : gmap jsstring jsstring) :
  cookieOrDefault cookies (js "aelia_cs_selected_currency")
    = cookieOrDefault cookies' (js "aelia_cs_selected_currency") →
  cookieOrDefault cookies (js "aelia_customer_country")
    = cookieOrDefault cookies' (js "aelia_customer_country") →
  generateCacheKey u cookies = generateCacheKey u cookies'.
Proof.
  intros Hcurrency Hcountry. unfold generateCacheKey, aeliaCookieValues.
  unfold AELIA_CACHE_COOKIES. cbn [fmap list_fmap].
  by rewrite Hcurrency, Hcountry.
Qed.

Lemma cookieOrDefault_default (o : option jsstring)
    (cookies : gmap jsstring jsstring) (name : jsstring) :
  cookies !! name = o → usesDefault o →
  cookieOrDefault cookies name = js "default".
Proof. unfold cookieOrDefault. by intros -> [->|[->| ->]]. Qed.

Lemma cookieOrDefault_agree (cookies cookies' : gmap jsstring jsstring)
    (name : jsstring) :
  cookies !! name = cookies' !! name
  ∨ (usesDefault (cookies !! name) ∧ usesDefault (cookies' !! name)) →
  cookieOrDefault cookies name = cookieOrDefault cookies' name.
Proof.
  intros [Heq|[H1 H2]].
  - unfold cookieOrDefault. by rewrite Heq.
  - by rewrite !(cookieOrDefault_default _ _ _ eq_refl).
Qed.

(** X14.  The cache key depends on the jar only through the two Aelia
    cookies, and a cookie that is absent, empty or literally "default" counts
    as "default": two jars that, for each of the two names, either hold the
    same value or both fall to the default give the same key (or the same
    exception) for every URL. *)
Theorem generateCacheKey_only_aelia (u : URL)
    (cookies cookies' : gmap jsstring jsstring) :
  (∀ name, name ∈ AELIA_CACHE_COOKIES →
     cookies !! name = cookies' !! name
     ∨ (usesDefault (cookies !! name) ∧ usesDefault (cookies' !! name))) →
  generateCacheKey u cookies = generateCacheKey u cookies'.
Proof.
  intros Hagree.
  apply generateCacheKey_cookieOrDefault; apply cookieOrDefault_agree, Hagree;
    unfold AELIA_CACHE_COOKIES.
  - by left.
  - right; by left.
Qed.

Lemma generateCacheKey_only_aelia_witness :
  generateCacheKey spareParts
    {[ js "aelia_cs_selected_currency" := js "default" ]}
  = generateCacheKey spareParts {[ js "wordpress_test_cookie" := js "1" ]}.
Proof.
  apply (generateCacheKey_only_aelia spareParts
           {[ js "aelia_cs_selected_currency" := js "default" ]}
           {[ js "wordpress_test_cookie" := js "1" ]}).
  unfold AELIA_CACHE_COOKIES. intros name Hin.
  apply elem_of_cons in Hin as [->|Hin].
  { right. split; [right; right; reflexivity|left; reflexivity]. }
  apply elem_of_cons in Hin as [->|Hin]; [by left|].
  by apply elem_of_nil in Hin.
Defined.

Lemma aeliaCookieValues_pair (currency country : jsstring) :
  truthy currency = true → truthy country = true →
  aeliaCookieValues {[ js "aelia_cs_selected_currency" := currency;
                       js "aelia_customer_country" := country ]}
  = js "aelia_cs_selected_currency=" ++ currency
    ++ js "&aelia_customer_country=" ++ country.
Proof.
  intros Hcur Hcountry.
  unfold aeliaCookieValues, AELIA_CACHE_COOKIES, cookieOrDefault.
  cbn [fmap list_fmap join].
  rewrite lookup_insert_eq, lookup_insert_ne by discriminate.
  rewrite lookup_singleton_eq, Hcur, Hcountry. by rewrite <- !app_assoc.
Qed.

(** X15.  The string of cookie values is joined with '&' and '=' without
    escaping the values, so different pairs of values can share a key: a
    currency cookie a&aelia_customer_country=b with country c gives the same
    key as currency a with country b&aelia_customer_country=c, for every URL
    and all non-empty a and c. *)
Theorem key_collision_by_ampersand (u : URL) (a b c : jsstring) :
  truthy a = true → truthy c = true →
  let injected := a ++ js "&aelia_customer_country=" ++ b in
  let shifted := b ++ js "&aelia_customer_country=" ++ c in
  injected ≠ a
  ∧ generateCacheKey u
      {[ js "aelia_cs_selected_currency" := injected;
         js "aelia_customer_country" := c ]}
    = generateCacheKey u
        {[ js "aelia_cs_selected_currency" := a;
           js "aelia_customer_country" := shifted ]}.
Proof.
  intros Ha Hc injected shifted. split.
  - subst injected. intros Heq. apply (f_equal length) in Heq.
    rewrite !length_app in Heq. simpl in Heq. lia.
  - unfold generateCacheKey.
    rewrite !aeliaCookieValues_pair; subst injected shifted; try done.
    + by rewrite <- !app_assoc.
    + by destruct b.
    + by destruct a.
Qed.

Lemma key_collision_by_ampersand_witness :
  js "EUR" ++ js "&aelia_customer_country=" ++ js "DE" ≠ js "EUR"
  ∧ generateCacheKey spareParts
      {[ js "aelia_cs_selected_currency" :=
           js "EUR" ++ js "&aelia_customer_country=" ++ js "DE";
         js "aelia_customer_country" := js "US" ]}
    = generateCacheKey spareParts
        {[ js "aelia_cs_selected_currency" := js "EUR";
           js "aelia_customer_country" :=
             js "DE" ++ js "&aelia_customer_country=" ++ js "US" ]}.
Proof.
  exact (key_collision_by_ampersand spareParts (js "EUR") (js "DE") (js "US")
           eq_refl eq_refl).
Defined.

(** X16.  shouldBypassCache reads the names of the cookies only, and more
    cookies never turn a bypass off: if a jar triggers the bypass, so does
    every jar that has at least its names, whatever the values. *)
Theorem shouldBypassCache_names (cookies cookies' : gmap jsstring jsstring) :
  dom cookies ⊆ dom cookies' →
  shouldBypassCache cookies = true → shouldBypassCache cookies' = true.
Proof.
  intros Hdom. unfold shouldBypassCache. rewrite !existsb_exists.
  intros (pattern & Hpattern & Hname). exists pattern. split; [done|].
  revert Hname. rewrite !existsb_exists.
  intros (name & Hin & Hmatch). exists name. split; [|done].
  apply Object_keys_spec, elem_of_dom, Hdom, elem_of_dom.
  by apply Object_keys_spec.
Qed.

Lemma shouldBypassCache_names_witness :
  shouldBypassCache
    (<[js "lang" := js "en"]> {[ js "wp_woocommerce_session_1" := js "b" ]})
  = true.
Proof.
  apply (shouldBypassCache_names
           {[ js "wp_woocommerce_session_1" := js "a" ]}
           (<[js "lang" := js "en"]>
              {[ js "wp_woocommerce_session_1" := js "b" ]})).
  - rewrite dom_insert, !dom_singleton. apply union_subseteq_r.
  - reflexivity.
Defined.

Lemma searchParams_baseKey (u : URL) (q : jsstring) :
  isSerialised u = true → 35 ∉ q →
  ∃ cacheKeyUrl,
    new_URL (baseKey (withQuery u (Some q))) = Ok cacheKeyUrl
    ∧ url_scheme cacheKeyUrl = url_scheme u
    ∧ url_host cacheKeyUrl = url_host u
    ∧ url_path cacheKeyUrl = url_path u
    ∧ url_fragment cacheKeyUrl = None
    ∧ searchParams cacheKeyUrl = urlencodedParse (utf8Encode q).
Proof.
  intros Hu Hq. eexists. split.
  { apply new_URL_baseKey. by apply isSerialised_withQuery. }
  cbn [withQuery url_scheme url_host url_path url_query url_fragment].
  split_and!; try done. unfold searchParams. cbn [url_query].
  by destruct q.
Qed.

(** X17.  On a variant-sensitive path the key is built from the parsed
    query, not from its text: two query strings that parse to the same list
    of name-value pairs (a%20b and a+b, for example) give the same key. *)
Theorem query_normalised (u : URL) (cookies : gmap jsstring jsstring)
    (q q' : jsstring) :
  isSerialised u = true → isShopOrProductPath (pathname u) = true →
  35 ∉ q → 35 ∉ q' →
  urlencodedParse (utf8Encode q) = urlencodedParse (utf8Encode q') →
  generateCacheKey (withQuery u (Some q)) cookies
  = generateCacheKey (withQuery u (Some q')) cookies.
Proof.
  intros Hu Hshop Hq Hq' Hparams. unfold generateCacheKey.
  change (pathname (withQuery u ?x)) with (pathname u). rewrite Hshop.
  destruct (searchParams_baseKey u q Hu Hq)
    as ([s1 h1 p1 q1 f1] & -> & Hs1 & Hh1 & Hp1 & Hf1 & Hsp1).
  destruct (searchParams_baseKey u q' Hu Hq')
    as ([s2 h2 p2 q2 f2] & -> & Hs2 & Hh2 & Hp2 & Hf2 & Hsp2).
  cbn [url_scheme url_host url_path url_fragment] in *. subst.
  cbn [mbind result_bind].
  destruct (encodeURIComponent (aeliaCookieValues cookies)) as [token|];
    [|done].
  cbn [mbind result_bind]. unfold searchParams_set.
  cbn [url_scheme url_host url_path url_fragment].
  by rewrite Hsp1, Hsp2, Hparams.
Qed.

Lemma query_normalised_witness :
  generateCacheKey (withQuery shop (Some (js "q=a%20b"))) ∅
  = generateCacheKey (withQuery shop (Some (js "q=a+b"))) ∅.
Proof.
  assert (35 ∉ js "q=a%20b") as Hq by compute_done.
  assert (35 ∉ js "q=a+b") as Hq' by compute_done.
  exact (query_normalised shop ∅ (js "q=a%20b") (js "q=a+b")
           eq_refl eq_refl Hq Hq' eq_refl).
Defined.

(** The parameters are octets: an escape that is not UTF-8 is written back
    as it came, and two such queries keep different keys. *)
Lemma ill_formed_escapes_kept :
  generateCacheKey (withQuery shop (Some (js "q=%FF"))) ∅
  = Ok (js ("https://host/shop?q=%FF&aelia_cache="
            ++ "aelia_cs_selected_currency%253Ddefault"
            ++ "%2526aelia_customer_country%253Ddefault"))
  ∧ generateCacheKey (withQuery shop (Some (js "q=%FF"))) ∅
    ≠ generateCacheKey (withQuery shop (Some (js "q=%80"))) ∅.
Proof. split; [reflexivity|by vm_compute]. Qed.

(** ** The analysis of the consistency script *)

Lemma size_list_to_set_gt_1 (l : list jsstring) :
  (1 < size (list_to_set l : gset jsstring))%nat ↔
  ∃ h1 h2, h1 ∈ l ∧ h2 ∈ l ∧ h1 ≠ h2.
Proof.
  split.
  - intros Hsize. destruct l as [|h1 l].
    { rewrite list_to_set_nil, size_empty in Hsize. lia. }
    destruct (decide (Forall (λ h, h = h1) l)) as [Hall|Hex].
    + assert ((list_to_set (h1 :: l) : gset jsstring) ⊆ {[h1]}) as Hsub.
      { intros h. rewrite elem_of_list_to_set, elem_of_singleton.
        intros [->|Hin]%elem_of_cons; [done|].
        by eapply Forall_forall in Hall. }
      apply subseteq_size in Hsub. rewrite size_singleton in Hsub. lia.
    + apply not_Forall_Exists in Hex; [|apply _].
      apply Exists_exists in Hex as (h2 & Hin & Hne).
      exists h1, h2. split_and!; [by left|by right|done].
  - intros (h1 & h2 & Hin1 & Hin2 & Hne).
    assert (({[h1; h2]} : gset jsstring) ⊆ list_to_set l) as Hsub.
    { intros h. rewrite elem_of_union, !elem_of_singleton, elem_of_list_to_set.
      by intros [->| ->]. }
    apply subseteq_size in Hsub.
    rewrite size_union, !size_singleton in Hsub; [lia|].
    set_solver.
Qed.

Lemma hashOf_allPages (allResults : list LocationResult)
    (result : LocationResult) (page h : jsstring) :
  result ∈ allResults → hashOf result page = Some h →
  page ∈ allPages allResults.
Proof.
  intros Hin Hhash. unfold allPages. apply elem_of_union_list.
  exists (from_option dom ∅ (pages (data result))). split.
  - apply list_elem_of_fmap. by exists result.
  - unfold hashOf in Hhash. destruct (pages (data result)) as [ps|]; [|done].
    simpl in *. destruct (ps !! page) as [pd|] eqn:Hpd; [|done].
    apply elem_of_dom. by exists pd.
Qed.

(** X18.  The consistency script reports an inconsistency exactly when two
    of the loaded results give different non-empty hashes for the same page;
    a page that a location has not cached (no pages, no entry, no hash or an
    empty one) is never counted as a version.  The script exits with code 1
    exactly in that case. *)
Theorem foundInconsistency_iff (allResults : list LocationResult) :
  (foundInconsistency allResults = true ↔
   ∃ page r1 r2 h1 h2,
     r1 ∈ allResults ∧ r2 ∈ allResults
     ∧ hashOf r1 page = Some h1 ∧ hashOf r2 page = Some h2 ∧ h1 ≠ h2)
  ∧ (exitCode allResults = 1 ↔ foundInconsistency allResults = true).
Proof.
  split; [|unfold exitCode; by destruct (foundInconsistency allResults)].
  unfold foundInconsistency, inconsistent. rewrite existsb_exists. split.
  - intros (page & _ & Hsize). apply bool_decide_eq_true in Hsize.
    apply size_list_to_set_gt_1 in Hsize as (h1 & h2 & Hin1 & Hin2 & Hne).
    apply list_elem_of_omap in Hin1 as (r1 & Hr1 & Hh1).
    apply list_elem_of_omap in Hin2 as (r2 & Hr2 & Hh2).
    by exists page, r1, r2, h1, h2.
  - intros (page & r1 & r2 & h1 & h2 & Hr1 & Hr2 & Hh1 & Hh2 & Hne).
    exists page. split.
    + apply list_elem_of_In, elem_of_elements. by eapply hashOf_allPages.
    + apply bool_decide_eq_true, size_list_to_set_gt_1.
      exists h1, h2. split_and!; [| |done]; apply list_elem_of_omap; eauto.
Qed.

(** ** encodeURIComponent and decodeURIComponent *)

Ltac div_lia := zify; Z.to_euclidean_division_equations; lia.

(** Settle the comparisons of the goal by arithmetic. *)
Ltac decide_cmp :=
  repeat match goal with
  | |- context [?a <? ?b] =>
      first [ replace (a <? b) with true by (symmetry; apply N.ltb_lt; div_lia)
            | replace (a <? b) with false by (symmetry; apply N.ltb_ge; div_lia) ]
  | |- context [?a <=? ?b] =>
      first [ replace (a <=? b) with true by (symmetry; apply N.leb_le; div_lia)
            | replace (a <=? b) with false by (symmetry; apply N.leb_gt; div_lia) ]
  end.

Lemma hexValue_hexDigit (v : N) : v < 16 → hexValue (hexDigit v) = Some v.
Proof.
  intros Hv. unfold hexDigit, hexValue.
  destruct (N.ltb_spec v 10); decide_cmp; cbn [andb]; f_equal; lia.
Qed.

Lemma hexOctet_hexDigit (b : N) :
  b < 256 → hexOctet (hexDigit (b / 16)) (hexDigit (b mod 16)) = Some b.
Proof.
  intros Hb. unfold hexOctet.
  rewrite !hexValue_hexDigit by div_lia. f_equal. div_lia.
Qed.

Lemma unescape_percentOctets (octets : list N) (rest : jsstring) :
  Forall (λ b, b < 256) octets →
  unescape (percentOctets octets ++ rest)
  = items ← unescape rest; Ok ((Octet <$> octets) ++ items).
Proof.
  induction 1 as [|b octets Hb _ IH].
  - simpl. by destruct (unescape rest).
  - unfold percentOctets in *. cbn [mbind list_bind].
    unfold percentOctet at 1. cbn [app unescape].
    change (37 =? 37) with true. cbv iota.
    rewrite hexOctet_hexDigit by done. rewrite IH.
    by destruct (unescape rest).
Qed.

Lemma utf8_octets (cp : N) : cp < 1114112 → Forall (λ b, b < 256) (utf8 cp).
Proof.
  intros Hcp. unfold utf8.
  destruct (N.ltb_spec cp 128); [|destruct (N.ltb_spec cp 2048);
    [|destruct (N.ltb_spec cp 65536)]];
    repeat (apply Forall_cons_2; [div_lia|]); apply Forall_nil_2.
Qed.

Lemma decodeItems_utf8 (cp : N) (items : list item) :
  cp < 1114112 → ¬ (55296 <= cp <= 57343) →
  decodeItems ((Octet <$> utf8 cp) ++ items)
  = r ← decodeItems items; Ok (utf16 cp ++ r).
Proof.
  intros Hcp Hsurrogate. unfold utf8.
  destruct (N.ltb_spec cp 128); [|destruct (N.ltb_spec cp 2048);
    [|destruct (N.ltb_spec cp 65536)]];
    cbn [fmap list_fmap app decodeItems]; unfold isContinuation.
  - decide_cmp. unfold utf16. decide_cmp. done.
  - decide_cmp. cbn [andb]. 
    replace ((192 + cp / 64 - 192) * 64 + (128 + cp mod 64 - 128)) with cp
      by div_lia.
    done.
  - decide_cmp. cbn [andb negb].
    replace ((224 + cp / 4096 - 224) * 4096
             + (128 + (cp / 64) mod 64 - 128) * 64
             + (128 + cp mod 64 - 128)) with cp by div_lia.
    destruct (N.leb_spec 55296 cp), (N.leb_spec cp 57343); cbn [andb negb];
      first [done | lia].
  - decide_cmp. cbn [andb negb].
    replace ((240 + cp / 262144 - 240) * 262144
             + (128 + (cp / 4096) mod 64 - 128) * 4096
             + (128 + (cp / 64) mod 64 - 128) * 64
             + (128 + cp mod 64 - 128)) with cp by div_lia.
    decide_cmp. done.
Qed.

Lemma isUnescaped_not_percent (c : N) : isUnescaped c = true → (c =? 37) = false.
Proof. destruct (N.eqb_spec c 37) as [->|]; [by vm_compute|done]. Qed.

Lemma utf16_surrogatePair (c d : N) :
  isHighSurrogate c = true → isLowSurrogate d = true →
  utf16 (surrogatePair c d) = [c; d]
  ∧ surrogatePair c d < 1114112
  ∧ ¬ (55296 <= surrogatePair c d <= 57343).
Proof.
  unfold isHighSurrogate, isLowSurrogate, utf16, surrogatePair.
  rewrite !andb_true_iff, !N.leb_le. intros [? ?] [? ?].
  split_and!; [|lia|lia]. decide_cmp. f_equal; [|f_equal]; div_lia.
Qed.

Lemma encodeURIComponent_decodable (s : jsstring) :
  Forall (λ c, c < 65536) s →
  ∀ e, encodeURIComponent s = Ok e →
  ∃ items, unescape e = Ok items ∧ decodeItems items = Ok s.
Proof.
  induction s as [s IH] using (induction_ltof1 _ (@length N)).
  unfold ltof in IH. intros Hs e. destruct s as [|c rest].
  { intros [= <-]. by exists []. }
  apply Forall_cons in Hs as [Hc Hrest]. simpl.
  destruct (isUnescaped c) eqn:Hunescaped.
  { destruct (encodeURIComponent rest) as [r|] eqn:Hr; [|done].
    simpl. intros [= <-].
    destruct (IH rest ltac:(simpl; lia) Hrest r Hr) as (items & Hitems & Hdec).
    exists (Lit c :: items). simpl.
    rewrite (isUnescaped_not_percent c Hunescaped), Hitems. simpl.
    by rewrite Hdec. }
  destruct (isHighSurrogate c) eqn:Hhigh.
  { destruct rest as [|d rest']; [done|].
    destruct (isLowSurrogate d) eqn:Hlow; [|done].
    apply Forall_cons in Hrest as [Hd Hrest'].
    destruct (encodeURIComponent rest') as [r|] eqn:Hr; [|done].
    simpl. intros [= <-].
    destruct (IH rest' ltac:(simpl; lia) Hrest' r Hr)
      as (items & Hitems & Hdec).
    destruct (utf16_surrogatePair c d Hhigh Hlow) as (Hpair & Hmax & Hns).
    exists ((Octet <$> utf8 (surrogatePair c d)) ++ items).
    rewrite unescape_percentOctets by by apply utf8_octets.
    rewrite Hitems. split; [done|].
    rewrite decodeItems_utf8 by done. by rewrite Hdec, Hpair. }
  destruct (isLowSurrogate c) eqn:Hlow; [done|].
  destruct (encodeURIComponent rest) as [r|] eqn:Hr; [|done].
  simpl. intros [= <-].
  destruct (IH rest ltac:(simpl; lia) Hrest r Hr) as (items & Hitems & Hdec).
  assert (¬ (55296 <= c <= 57343)) as Hns.
  { unfold isHighSurrogate, isLowSurrogate in *.
    apply andb_false_iff in Hhigh, Hlow. rewrite !N.leb_gt in *. lia. }
  exists ((Octet <$> utf8 c) ++ items).
  rewrite unescape_percentOctets by (apply utf8_octets; lia).
  rewrite Hitems. split; [done|].
  rewrite decodeItems_utf8 by (done || lia). rewrite Hdec. simpl.
  unfold utf16. by rewrite (proj2 (N.ltb_lt _ _) Hc).
Qed.

(** decodeURIComponent undoes encodeURIComponent. *)
Lemma decodeURIComponent_encodeURIComponent (s e : jsstring) :
  Forall (λ c, c < 65536) s →
  encodeURIComponent s = Ok e → decodeURIComponent e = Ok s.
Proof.
  intros Hs He. unfold decodeURIComponent.
  destruct (encodeURIComponent_decodable s Hs e He) as (items & -> & Hdec).
  done.
Qed.

Lemma hexDigit_tokenChar (v : N) : v < 16 → tokenChar (hexDigit v) = true.
Proof.
  intros Hv. unfold tokenChar, isUnescaped, isAlphaNumeric, hexDigit.
  destruct (N.ltb_spec v 10).
  - replace ((48 <=? 48 + v) && (48 + v <=? 57)) with true; [done|].
    symmetry; apply andb_true_iff; split; apply N.leb_le; lia.
  - replace ((65 <=? 55 + v) && (55 + v <=? 90)) with true.
    { by rewrite !orb_true_r. }
    symmetry; apply andb_true_iff; split; apply N.leb_le; lia.
Qed.

Lemma percentOctets_tokenChar (octets : list N) :
  Forall (λ b, b < 256) octets →
  Forall (λ c, tokenChar c = true) (percentOctets octets).
Proof.
  induction 1 as [|b octets Hb _ IH]; [constructor|].
  unfold percentOctets in *. cbn [mbind list_bind]. apply Forall_app. split; [|done].
  unfold percentOctet.
  repeat (apply Forall_cons_2; [first [done | apply hexDigit_tokenChar; div_lia]|]).
  apply Forall_nil_2.
Qed.

Lemma encodeURIComponent_tokenChar (s : jsstring) :
  Forall (λ c, c < 65536) s →
  ∀ e, encodeURIComponent s = Ok e → Forall (λ c, tokenChar c = true) e.
Proof.
  induction s as [s IH] using (induction_ltof1 _ (@length N)).
  unfold ltof in IH. intros Hs e. destruct s as [|c rest].
  { intros [= <-]. constructor. }
  apply Forall_cons in Hs as [Hc Hrest]. simpl.
  destruct (isUnescaped c) eqn:Hunescaped.
  { destruct (encodeURIComponent rest) as [r|] eqn:Hr; [|done].
    simpl. intros [= <-]. apply Forall_cons_2.
    - unfold tokenChar. by rewrite Hunescaped.
    - by apply (IH rest ltac:(simpl; lia)). }
  destruct (isHighSurrogate c) eqn:Hhigh.
  { destruct rest as [|d rest']; [done|].
    destruct (isLowSurrogate d) eqn:Hlow; [|done].
    apply Forall_cons in Hrest as [Hd Hrest'].
    destruct (encodeURIComponent rest') as [r|] eqn:Hr; [|done].
    simpl. intros [= <-]. apply Forall_app. split.
    - apply percentOctets_tokenChar, utf8_octets.
      by destruct (utf16_surrogatePair c d Hhigh Hlow) as (_ & ? & _).
    - by apply (IH rest' ltac:(simpl; lia)). }
  destruct (isLowSurrogate c) eqn:Hlow; [done|].
  destruct (encodeURIComponent rest) as [r|] eqn:Hr; [|done].
  simpl. intros [= <-]. apply Forall_app. split.
  - apply percentOctets_tokenChar, utf8_octets. lia.
  - by apply (IH rest ltac:(simpl; lia)).
Qed.

Lemma tokenChar_plain (c : N) :
  tokenChar c = true →
  isWhiteSpace c = false ∧ c ≠ 59 ∧ c ≠ 61 ∧ c ≠ 38 ∧ c ≠ 32 ∧ c < 128.
Proof.
  unfold tokenChar, isUnescaped, isAlphaNumeric, isWhiteSpace.
  rewrite !orb_true_iff, !andb_true_iff, !N.leb_le, !N.eqb_eq.
  intros Hc. split_and!; try lia.
  rewrite !orb_false_iff, !andb_false_iff, !N.leb_gt, !N.eqb_neq. lia.
Qed.

Lemma trim_id (s : jsstring) (c z : N) :
  head s = Some c → last s = Some z →
  isWhiteSpace c = false → isWhiteSpace z = false → trim s = s.
Proof.
  intros Hhead Hlast Hc Hz. unfold trim, trimEnd.
  assert (trimStart s = s) as ->.
  { destruct s as [|c' s]; [done|]. simpl in *. injection Hhead as ->.
    by rewrite Hc. }
  assert (head (reverse s) = Some z) as Hrev by by rewrite head_reverse.
  destruct (reverse s) as [|z' r] eqn:Hr; [done|]. simpl in *.
  injection Hrev as ->. rewrite Hz, <- Hr. apply reverse_involutive.
Qed.

(** ** Cookies written with encodeURIComponent *)

Lemma tokenChars_notin (e : jsstring) (x : N) :
  Forall (λ c, tokenChar c = true) e → x = 59 ∨ x = 61 ∨ x = 38 → x ∉ e.
Proof.
  intros He Hx Hin. eapply Forall_forall in He; [|done].
  apply tokenChar_plain in He. lia.
Qed.

(** X19.  A cookie written as name=encodeURIComponent(value) is read back
    as value: appending ";" and that text to a header that parses to a jar
    gives the jar with name set to value, for every non-empty value that
    encodeURIComponent accepts, whatever characters it holds (';', '=',
    spaces, non-ASCII), and every name without ';' and '=' that does not
    start with white space and is not __proto__. *)
Theorem cookie_round_trip cookieHeader cookies name value encoded :
  parseCookies cookieHeader = Ok cookies →
  Forall (λ c, c < 65536) value → value ≠ [] →
  encodeURIComponent value = Ok encoded →
  from_option isWhiteSpace true (head name) = false →
  name ≠ js "__proto__" → 59 ∉ name → 61 ∉ name →
  parseCookies (cookieHeader ++ js ";" ++ name ++ js "=" ++ encoded)
  = Ok (<[name := value]> cookies).
Proof.
  intros Hheader Hvalid Hvalue Hencoded Hhead Hproto H59 H61.
  pose proof (encodeURIComponent_tokenChar value Hvalid encoded Hencoded)
    as Htoken.
  destruct (encodeURIComponent_decodable value Hvalid encoded Hencoded)
    as (items & Hitems & Hdecoded).
  assert (decodeURIComponent encoded = Ok value) as Hdec.
  { unfold decodeURIComponent. by rewrite Hitems. }
  assert (encoded ≠ []) as Hne.
  { intros ->. by injection Hdec as <-. }
  destruct name as [|c rest]; [done|]. simpl in Hhead.
  destruct (exists_last Hne) as (front & z & ->).
  apply Forall_app in Htoken as Hz. destruct Hz as [_ Hz].
  apply Forall_cons in Hz as [Hz _]. apply tokenChar_plain in Hz as [Hz _].
  rewrite parseCookies_snoc, Hheader.
  2:{ apply not_elem_of_app; split; [done|].
      apply not_elem_of_app; split; [compute_done|].
      by apply tokenChars_notin; [|left]. }
  cbn [mbind result_bind].
  apply parseCookie_pair with (front ++ [z]); try done.
  - eapply (trim_id _ c z); [done| |done|done].
    by rewrite !app_assoc, last_snoc.
  - by apply tokenChars_notin; [|right; left].
Qed.

Lemma cookie_round_trip_witness :
  parseCookies (js "a=1" ++ js ";" ++ js "note" ++ js "="
                ++ js "x%3D1%3B%20y%26z")
  = Ok (<[js "note" := js "x=1; y&z"]> {[ js "a" := js "1" ]}).
Proof.
  assert (Forall (λ c, c < 65536) (js "x=1; y&z")) as Hvalid by compute_done.
  assert (js "x=1; y&z" ≠ []) as Hvalue by done.
  assert (js "note" ≠ js "__proto__") as Hproto by done.
  assert (59 ∉ js "note") as H59 by compute_done.
  assert (61 ∉ js "note") as H61 by compute_done.
  exact (cookie_round_trip (js "a=1") {[ js "a" := js "1" ]} (js "note")
           (js "x=1; y&z") (js "x%3D1%3B%20y%26z")
           eq_refl Hvalid Hvalue eq_refl eq_refl Hproto H59 H61).
Defined.

(** ** When two cache keys are equal *)

Lemma URLSearchParams_set_shape (tuples : list (list N * list N))
    (name : list N) :
  ∃ before after,
    ∀ value, URLSearchParams_set tuples name value
             = before ++ (name, value) :: after.
Proof.
  induction tuples as [|[n v] rest (before & after & IH)].
  - by exists [], [].
  - simpl. case_bool_decide.
    + by exists [], (filter (λ p, p.1 ≠ name) rest).
    + exists ((n, v) :: before), after. intros value. by rewrite IH.
Qed.

Lemma join_shape (sep : jsstring) (before after : list jsstring) :
  ∃ A B, ∀ part, join sep (before ++ part :: after) = A ++ part ++ B.
Proof.
  induction before as [|p before (A & B & IH)].
  - exists [], (match after with [] => [] | _ => sep ++ join sep after end).
    intros part. simpl. destruct after; [by rewrite app_nil_r|done].
  - exists (p ++ sep ++ A), B. intros part.
    change ((p :: before) ++ part :: after)
      with (p :: (before ++ part :: after)).
    assert (∀ l, l ≠ [] → join sep (p :: l) = p ++ sep ++ join sep l) as Hj.
    { intros [|x l]; [done|done]. }
    rewrite Hj by by destruct before. rewrite IH. by rewrite <- !app_assoc.
Qed.

Lemma urlencodedSerialize_set_shape (tuples : list (list N * list N))
    (name : list N) :
  ∃ A B, A ≠ [] ∧
    ∀ value, urlencodedSerialize (URLSearchParams_set tuples name value)
             = A ++ urlencodedOctets value ++ B.
Proof.
  destruct (URLSearchParams_set_shape tuples name) as (before & after & Hset).
  set (f := λ '(n, v), urlencodedOctets n ++ js "=" ++ urlencodedOctets v).
  destruct (join_shape (js "&") (f <$> before) (f <$> after)) as (A & B & Hjoin).
  exists (A ++ urlencodedOctets name ++ js "="), B. split.
  { intros Heq. apply (f_equal length) in Heq.
    rewrite !length_app in Heq. simpl in Heq. lia. }
  intros value. unfold urlencodedSerialize. rewrite Hset, fmap_app, fmap_cons.
  fold f. rewrite Hjoin. simpl. by rewrite <- !app_assoc.
Qed.

(** The key of a variant-sensitive URL: a prefix and a suffix that the URL
    fixes, around the serialised token. *)
Lemma generateCacheKey_shape (u : URL) :
  isSerialised u = true → isShopOrProductPath (pathname u) = true →
  ∃ K B, ∀ cookies token,
    encodeURIComponent (aeliaCookieValues cookies) = Ok token →
    generateCacheKey u cookies
    = Ok (K ++ urlencodedString token ++ B).
Proof.
  intros Hu Hshop.
  pose proof (new_URL_baseKey u Hu) as Hparse.
  set (cacheKeyUrl := {| url_scheme := url_scheme u |}) in Hparse.
  destruct (urlencodedSerialize_set_shape (searchParams cacheKeyUrl)
              (utf8Encode (js "aelia_cache"))) as (A & B & HA & Hser).
  exists (url_scheme u ++ js "://" ++ url_host u ++ url_path u ++ js "?" ++ A),
    (B ++ []).
  intros cookies token Htoken. unfold generateCacheKey.
  rewrite Hshop, Hparse, Htoken. cbn [mbind result_bind]. f_equal.
  unfold toString, searchParams_set.
  cbn [url_scheme url_host url_path url_query url_fragment cacheKeyUrl].
  fold cacheKeyUrl. rewrite Hser. fold (urlencodedString token).
  destruct A as [|a A]; [done|]. cbn [truthy app].
  rewrite !app_nil_r, <- !app_assoc. cbn [app]. by rewrite <- ?app_assoc.
Qed.

Lemma percentDecode_urlencodedString (t : jsstring) :
  Forall (λ c, tokenChar c = true) t →
  percentDecode (urlencodedString t) = t.
Proof.
  intros Ht. unfold urlencodedString, urlencodedOctets.
  rewrite utf8Encode_ascii.
  2:{ eapply Forall_impl; [done|]. intros c Hc.
      by apply tokenChar_plain in Hc as (_ & _ & _ & _ & _ & ?). }
  induction Ht as [|c t Hc _ IH]; [done|]. cbn [mbind list_bind].
  apply tokenChar_plain in Hc as Hplain.
  destruct Hplain as (_ & _ & _ & _ & Hspace & Hascii).
  unfold urlencodedByte. rewrite (proj2 (N.eqb_neq c 32)) by done.
  destruct (isAlphaNumeric c || (c =? 42) || (c =? 45) || (c =? 46)
            || (c =? 95)) eqn:Hsafe.
  - cbn [app percentDecode].
    assert ((c =? 37) = false) as ->.
    { destruct (N.eqb_spec c 37) as [->|]; [by vm_compute in Hsafe|done]. }
    cbv iota. f_equal. apply IH.
  - unfold percentOctet. cbn [app percentDecode].
    change (37 =? 37) with true. cbv iota.
    rewrite hexOctet_hexDigit by lia. f_equal. apply IH.
Qed.

Lemma aeliaCookieValues_valid (cookies : gmap jsstring jsstring) :
  validJar cookies → Forall (λ c, c < 65536) (aeliaCookieValues cookies).
Proof.
  intros Hvalid.
  assert (∀ name, Forall (λ c, c < 65536) (cookieOrDefault cookies name))
    as Hdefault.
  { intros name. unfold cookieOrDefault.
    destruct (cookies !! name) as [v|] eqn:Hv; [|compute_done].
    destruct (truthy v); [by eapply Hvalid|compute_done]. }
  unfold aeliaCookieValues, AELIA_CACHE_COOKIES. cbn [fmap list_fmap join].
  rewrite !Forall_app. split_and!; first [apply Hdefault | compute_done].
Qed.

Lemma aeliaCookieValues_cookieOrDefault (cookies : gmap jsstring jsstring) :
  aeliaCookieValues cookies
  = (js "aelia_cs_selected_currency="
     ++ cookieOrDefault cookies (js "aelia_cs_selected_currency"))
    ++ 38 :: (js "aelia_customer_country="
              ++ cookieOrDefault cookies (js "aelia_customer_country")).
Proof.
  unfold aeliaCookieValues, AELIA_CACHE_COOKIES. cbn [fmap list_fmap join].
  by rewrite <- !app_assoc.
Qed.

Lemma app_sep_inj (sep : N) (a a' b b' : jsstring) :
  sep ∉ a → sep ∉ a' → a ++ sep :: b = a' ++ sep :: b' → a = a' ∧ b = b'.
Proof.
  revert a'. induction a as [|x a IH]; intros [|x' a'] Ha Ha'; simpl.
  - by intros [= ->].
  - intros [= <- _]. by apply not_elem_of_cons in Ha' as [? _].
  - intros [= -> _]. by apply not_elem_of_cons in Ha as [? _].
  - intros [= -> Heq]. apply not_elem_of_cons in Ha as [_ Ha].
    apply not_elem_of_cons in Ha' as [_ Ha'].
    by destruct (IH a' Ha Ha' Heq) as [-> ->].
Qed.

Lemma generateCacheKey_values (u : URL)
    (cookies cookies' : gmap jsstring jsstring) (token token' : jsstring) :
  isSerialised u = true → isShopOrProductPath (pathname u) = true →
  validJar cookies → validJar cookies' →
  encodeURIComponent (aeliaCookieValues cookies) = Ok token →
  encodeURIComponent (aeliaCookieValues cookies') = Ok token' →
  generateCacheKey u cookies = generateCacheKey u cookies' →
  aeliaCookieValues cookies = aeliaCookieValues cookies'.
Proof.
  intros Hu Hshop Hvalid Hvalid' Htoken Htoken'.
  destruct (generateCacheKey_shape u Hu Hshop) as (K & B & Hkey).
  rewrite (Hkey _ _ Htoken), (Hkey _ _ Htoken'). intros [= Heq].
  apply app_inv_head, app_inv_tail in Heq.
  apply aeliaCookieValues_valid in Hvalid, Hvalid'.
  pose proof (encodeURIComponent_tokenChar _ Hvalid _ Htoken) as Hchars.
  pose proof (encodeURIComponent_tokenChar _ Hvalid' _ Htoken') as Hchars'.
  apply (f_equal percentDecode) in Heq.
  rewrite !percentDecode_urlencodedString in Heq by done. subst token'.
  destruct (encodeURIComponent_decodable _ Hvalid _ Htoken)
    as (items & Hitems & Hdec).
  destruct (encodeURIComponent_decodable _ Hvalid' _ Htoken')
    as (items' & Hitems' & Hdec').
  congruence.
Qed.

(** X20.  On a variant-sensitive path of a serialised URL, two jars get the
    same cache key exactly when their strings of cookie values
    (aelia_cs_selected_currency=..&aelia_customer_country=..) are equal:
    encoding the string and serialising the URL lose nothing. *)
Theorem key_collides_iff_values_string (u : URL)
    (cookies cookies' : gmap jsstring jsstring) (token token' : jsstring) :
  isSerialised u = true → isShopOrProductPath (pathname u) = true →
  validJar cookies → validJar cookies' →
  encodeURIComponent (aeliaCookieValues cookies) = Ok token →
  encodeURIComponent (aeliaCookieValues cookies') = Ok token' →
  generateCacheKey u cookies = generateCacheKey u cookies' ↔
  aeliaCookieValues cookies = aeliaCookieValues cookies'.
Proof.
  intros Hu Hshop Hvalid Hvalid' Htoken Htoken'. split.
  - by apply (generateCacheKey_values u cookies cookies' token token').
  - intros Heq. unfold generateCacheKey. by rewrite Heq.
Qed.

Lemma key_collides_iff_values_string_witness :
  generateCacheKey spareParts {[ js "aelia_cs_selected_currency" := js "EUR" ]}
  = generateCacheKey spareParts
      {[ js "aelia_customer_country" := js "default" ]}
  ↔ aeliaCookieValues {[ js "aelia_cs_selected_currency" := js "EUR" ]}
    = aeliaCookieValues {[ js "aelia_customer_country" := js "default" ]}.
Proof.
  assert (validJar {[ js "aelia_cs_selected_currency" := js "EUR" ]}) as Hjar.
  { intros name value [_ <-]%lookup_singleton_Some. compute_done. }
  assert (validJar {[ js "aelia_customer_country" := js "default" ]}) as Hjar'.
  { intros name value [_ <-]%lookup_singleton_Some. compute_done. }
  exact (key_collides_iff_values_string spareParts
           {[ js "aelia_cs_selected_currency" := js "EUR" ]}
           {[ js "aelia_customer_country" := js "default" ]}
           (js ("aelia_cs_selected_currency%3DEUR"
                ++ "%26aelia_customer_country%3Ddefault"))
           (js ("aelia_cs_selected_currency%3Ddefault"
                ++ "%26aelia_customer_country%3Ddefault"))
           eq_refl eq_refl Hjar Hjar' eq_refl eq_refl).
Defined.

(** X21.  When the currency values in use hold no '&', the key separates
    the variants: on a variant-sensitive path of a serialised URL two jars
    get the same cache key exactly when they agree on the currency in use
    and on the country in use (the cookie's value, or "default"). *)
Theorem key_injective (u : URL)
    (cookies cookies' : gmap jsstring jsstring) (token token' : jsstring) :
  isSerialised u = true → isShopOrProductPath (pathname u) = true →
  validJar cookies → validJar cookies' →
  encodeURIComponent (aeliaCookieValues cookies) = Ok token →
  encodeURIComponent (aeliaCookieValues cookies') = Ok token' →
  38 ∉ cookieOrDefault cookies (js "aelia_cs_selected_currency") →
  38 ∉ cookieOrDefault cookies' (js "aelia_cs_selected_currency") →
  generateCacheKey u cookies = generateCacheKey u cookies' ↔
  cookieOrDefault cookies (js "aelia_cs_selected_currency")
    = cookieOrDefault cookies' (js "aelia_cs_selected_currency")
  ∧ cookieOrDefault cookies (js "aelia_customer_country")
    = cookieOrDefault cookies' (js "aelia_customer_country").
Proof.
  intros Hu Hshop Hvalid Hvalid' Htoken Htoken' Hamp Hamp'. split.
  - intros Heq.
    apply (generateCacheKey_values u cookies cookies' token token') in Heq;
      [|done..].
    rewrite !aeliaCookieValues_cookieOrDefault in Heq.
    apply app_sep_inj in Heq as [Hcur Hcountry].
    + by apply app_inv_head in Hcur, Hcountry.
    + apply not_elem_of_app. split; [compute_done|done].
    + apply not_elem_of_app. split; [compute_done|done].
  - intros [Hcur Hcountry]. unfold generateCacheKey.
    by rewrite !aeliaCookieValues_cookieOrDefault, Hcur, Hcountry.
Qed.

Lemma key_injective_witness :
  generateCacheKey spareParts {[ js "aelia_cs_selected_currency" := js "EUR" ]}
  = generateCacheKey spareParts
      {[ js "aelia_customer_country" := js "default" ]}
  ↔ cookieOrDefault {[ js "aelia_cs_selected_currency" := js "EUR" ]}
      (js "aelia_cs_selected_currency")
    = cookieOrDefault {[ js "aelia_customer_country" := js "default" ]}
        (js "aelia_cs_selected_currency")
    ∧ cookieOrDefault {[ js "aelia_cs_selected_currency" := js "EUR" ]}
        (js "aelia_customer_country")
      = cookieOrDefault {[ js "aelia_customer_country" := js "default" ]}
          (js "aelia_customer_country").
Proof.
  assert (validJar {[ js "aelia_cs_selected_currency" := js "EUR" ]}) as Hjar.
  { intros name value [_ <-]%lookup_singleton_Some. compute_done. }
  assert (validJar {[ js "aelia_customer_country" := js "default" ]}) as Hjar'.
  { intros name value [_ <-]%lookup_singleton_Some. compute_done. }
  assert (38 ∉ cookieOrDefault {[ js "aelia_cs_selected_currency" := js "EUR" ]}
                 (js "aelia_cs_selected_currency")) as Hamp by compute_done.
  assert (38 ∉ cookieOrDefault {[ js "aelia_customer_country" := js "default" ]}
                 (js "aelia_cs_selected_currency")) as Hamp' by compute_done.
  exact (key_injective spareParts
           {[ js "aelia_cs_selected_currency" := js "EUR" ]}
           {[ js "aelia_customer_country" := js "default" ]}
           (js ("aelia_cs_selected_currency%3DEUR"
                ++ "%26aelia_customer_country%3Ddefault"))
           (js ("aelia_cs_selected_currency%3Ddefault"
                ++ "%26aelia_customer_country%3Ddefault"))
           eq_refl eq_refl Hjar Hjar' eq_refl eq_refl Hamp Hamp').
Defined.

(** ** A supplied aelia_cache parameter *)

Lemma filter_blankValues (name : list N) (tuples : list (list N * list N)) :
  filter (λ p, p.1 ≠ name) (blankValues name tuples)
  = filter (λ p, p.1 ≠ name) tuples.
Proof.
  induction tuples as [|[n v] rest IH]; [done|].
  unfold blankValues in *. cbn [fmap list_fmap fst]. case_bool_decide as Hn.
  - by rewrite !filter_cons_False by (simpl; tauto).
  - by rewrite !filter_cons_True, IH by done.
Qed.

Lemma URLSearchParams_set_blankValues (tuples : list (list N * list N))
    (name value : list N) :
  URLSearchParams_set (blankValues name tuples) name value
  = URLSearchParams_set tuples name value.
Proof.
  induction tuples as [|[n v] rest IH]; [done|].
  change (blankValues name ((n, v) :: rest))
    with ((if bool_decide (n = name) then (n, []) else (n, v))
          :: blankValues name rest).
  destruct (decide (n = name)) as [->|Hn].
  - rewrite bool_decide_eq_true_2 by done. simpl.
    rewrite bool_decide_eq_true_2 by done. by rewrite filter_blankValues.
  - rewrite bool_decide_eq_false_2 by done. simpl.
    rewrite bool_decide_eq_false_2 by done. by rewrite IH.
Qed.

Lemma URLSearchParams_set_snoc (tuples : list (list N * list N))
    (name supplied value : list N) :
  URLSearchParams_set (tuples ++ [(name, supplied)]) name value
  = URLSearchParams_set tuples name value.
Proof.
  induction tuples as [|[n v] rest IH]; simpl.
  - by rewrite bool_decide_eq_true_2.
  - case_bool_decide as Hn; [|by rewrite IH].
    f_equal. rewrite filter_app, filter_cons_False, filter_nil by (simpl; tauto).
    by rewrite app_nil_r.
Qed.

Lemma URLSearchParams_set_other (tuples : list (list N * list N))
    (name value : list N) :
  filter (λ p, p.1 ≠ name) (URLSearchParams_set tuples name value)
  = filter (λ p, p.1 ≠ name) tuples.
Proof.
  induction tuples as [|[n v] rest IH]; simpl.
  - by rewrite filter_cons_False, filter_nil by (simpl; tauto).
  - case_bool_decide as Hn.
    + rewrite !filter_cons_False by (simpl; tauto).
      rewrite list_filter_filter. apply list_filter_iff. intros [n' v']. tauto.
    + by rewrite !filter_cons_True, IH by done.
Qed.

(** The key of a URL with a query, in terms of the parameters. *)
Lemma generateCacheKey_query (u : URL) (cookies : gmap jsstring jsstring)
    (q : jsstring) :
  isSerialised u = true → isShopOrProductPath (pathname u) = true → 35 ∉ q →
  generateCacheKey (withQuery u (Some q)) cookies
  = token ← encodeURIComponent (aeliaCookieValues cookies);
    Ok (url_scheme u ++ js "://" ++ url_host u ++ url_path u ++ js "?"
        ++ urlencodedSerialize
             (URLSearchParams_set (urlencodedParse (utf8Encode q))
                (utf8Encode (js "aelia_cache")) (utf8Encode token))).
Proof.
  intros Hu Hshop Hq. unfold generateCacheKey.
  change (pathname (withQuery u ?x)) with (pathname u). rewrite Hshop.
  destruct (searchParams_baseKey u q Hu Hq)
    as ([s1 h1 p1 q1 f1] & -> & Hs1 & Hh1 & Hp1 & Hf1 & Hsp1).
  cbn [url_scheme url_host url_path url_fragment] in *. subst.
  cbn [mbind result_bind].
  destruct (encodeURIComponent (aeliaCookieValues cookies)) as [token|];
    [|done].
  cbn [mbind result_bind]. f_equal. unfold searchParams_set, toString.
  cbn [url_scheme url_host url_path url_fragment url_query]. rewrite Hsp1.
  destruct (urlencodedSerialize_set_shape (urlencodedParse (utf8Encode q))
              (utf8Encode (js "aelia_cache"))) as (A & B & HA & ->).
  destruct A as [|a A]; [done|]. cbn [truthy app]. by rewrite app_nil_r.
Qed.

Lemma generateCacheKey_query_None (u : URL)
    (cookies : gmap jsstring jsstring) :
  generateCacheKey (withQuery u None) cookies
  = generateCacheKey (withQuery u (Some [])) cookies.
Proof. reflexivity. Qed.

Lemma hexDigit_chars (v : N) :
  hexDigit v ≠ 35 ∧ hexDigit v ≠ 38 ∧ hexDigit v ≠ 61.
Proof. unfold hexDigit. destruct (N.ltb_spec v 10); lia. Qed.

Lemma urlencodedByte_chars (b c : N) :
  c ∈ urlencodedByte b → c ≠ 35 ∧ c ≠ 38 ∧ c ≠ 61.
Proof.
  unfold urlencodedByte. destruct (N.eqb_spec b 32) as [->|Hb].
  { intros ->%list_elem_of_singleton. lia. }
  destruct (isAlphaNumeric b || (b =? 42) || (b =? 45) || (b =? 46)
            || (b =? 95)) eqn:Hsafe.
  - intros ->%list_elem_of_singleton. revert Hsafe. unfold isAlphaNumeric.
    rewrite !orb_true_iff, !andb_true_iff, !N.leb_le, !N.eqb_eq. lia.
  - unfold percentOctet. rewrite !elem_of_cons, elem_of_nil.
    pose proof (hexDigit_chars (b / 16)). pose proof (hexDigit_chars (b mod 16)).
    intros [->|[->|[->|[]]]]; lia.
Qed.

Lemma urlencodedOctets_chars (octets : list N) (c : N) :
  c ∈ urlencodedOctets octets → c ≠ 35 ∧ c ≠ 38 ∧ c ≠ 61.
Proof.
  unfold urlencodedOctets. rewrite list_elem_of_bind.
  intros (b & Hc & _). by eapply urlencodedByte_chars.
Qed.

Lemma urlencodedByte_ascii (b : N) :
  b < 256 → Forall (λ c, c < 128) (urlencodedByte b).
Proof.
  intros Hb. unfold urlencodedByte. destruct (N.eqb_spec b 32) as [->|_].
  { by apply Forall_singleton. }
  destruct (isAlphaNumeric b || (b =? 42) || (b =? 45) || (b =? 46)
            || (b =? 95)) eqn:Hsafe.
  - apply Forall_singleton. revert Hsafe. unfold isAlphaNumeric.
    rewrite !orb_true_iff, !andb_true_iff, !N.leb_le, !N.eqb_eq. lia.
  - unfold percentOctet, hexDigit.
    repeat (apply Forall_cons_2; [|]); [lia| | |apply Forall_nil_2].
    + destruct (N.ltb_spec (b / 16) 10); div_lia.
    + destruct (N.ltb_spec (b mod 16) 10); div_lia.
Qed.

Lemma urlencodedOctets_ascii (octets : list N) :
  isOctets octets → Forall (λ c, c < 128) (urlencodedOctets octets).
Proof.
  unfold urlencodedOctets. induction 1 as [|b octets Hb _ IH]; [done|].
  cbn [mbind list_bind]. apply Forall_app. split; [|done].
  by apply urlencodedByte_ascii.
Qed.

Lemma urlencodedDecode_urlencodedOctets (octets : list N) :
  isOctets octets → urlencodedDecode (urlencodedOctets octets) = octets.
Proof.
  unfold urlencodedOctets. induction 1 as [|b octets Hb _ IH]; [done|].
  cbn [mbind list_bind]. unfold urlencodedByte at 1.
  destruct (N.eqb_spec b 32) as [->|Hsp].
  { unfold urlencodedDecode in *. cbn [app plusToSpace fmap list_fmap].
    change (43 =? 43) with true. cbn [percentDecode].
    change (32 =? 37) with false. cbv iota. f_equal. apply IH. }
  destruct (isAlphaNumeric b || (b =? 42) || (b =? 45) || (b =? 46)
            || (b =? 95)) eqn:Hsafe.
  - change ([b] ++ ?x) with (b :: x). 
    assert (b ≠ 37 ∧ b ≠ 43) as [H37 H43].
    { revert Hsafe. unfold isAlphaNumeric.
      rewrite !orb_true_iff, !andb_true_iff, !N.leb_le, !N.eqb_eq. lia. }
    unfold urlencodedDecode in *. cbn [plusToSpace fmap list_fmap].
    rewrite (proj2 (N.eqb_neq b 43)) by done. cbn [percentDecode].
    rewrite (proj2 (N.eqb_neq b 37)) by done. f_equal. apply IH.
  - unfold percentOctet. unfold urlencodedDecode in *.
    cbn [app plusToSpace fmap list_fmap].
    assert (∀ v, (hexDigit v =? 43) = false) as Hhex.
    { intros v. apply N.eqb_neq. unfold hexDigit.
      destruct (N.ltb_spec v 10); lia. }
    rewrite !Hhex. change (37 =? 43) with false. cbv iota.
    cbn [percentDecode]. change (37 =? 37) with true. cbv iota.
    rewrite hexOctet_hexDigit by done. f_equal. apply IH.
Qed.

Lemma splitFirst_app (sep : N) (a b : list N) :
  sep ∉ a → splitFirst sep (a ++ sep :: b) = (a, Some b).
Proof.
  induction a as [|c a IH]; simpl.
  - by rewrite N.eqb_refl.
  - intros [Hc Ha]%not_elem_of_cons.
    rewrite (proj2 (N.eqb_neq c sep)) by done. by rewrite IH.
Qed.

Lemma join_Forall (P : N → Prop) (sep : jsstring) (parts : list jsstring) :
  Forall P sep → Forall (Forall P) parts → Forall P (join sep parts).
Proof.
  intros Hsep. induction 1 as [|p parts Hp Hparts IH]; [done|].
  destruct parts as [|p' parts]; [done|].
  change (join sep (p :: p' :: parts)) with (p ++ sep ++ join sep (p' :: parts)).
  rewrite !Forall_app. by split_and!.
Qed.

Lemma urlencodedSerialize_ascii (tuples : list (list N * list N)) :
  octetPairs tuples → Forall (λ c, c < 128) (urlencodedSerialize tuples).
Proof.
  intros Htuples. apply join_Forall; [compute_done|].
  apply Forall_fmap. eapply Forall_impl; [done|]. intros [n v] [Hn Hv].
  simpl. rewrite Forall_app, Forall_cons.
  split_and!; [|lia|]; by apply urlencodedOctets_ascii.
Qed.

Lemma urlencodedParse_serialize (tuples : list (list N * list N)) :
  octetPairs tuples →
  urlencodedParse (utf8Encode (urlencodedSerialize tuples)) = tuples.
Proof.
  intros Htuples.
  rewrite utf8Encode_ascii by by apply urlencodedSerialize_ascii.
  unfold urlencodedParse, urlencodedSerialize.
  destruct tuples as [|p tuples]; [done|].
  change (js "&") with [38]. rewrite split_join; [|done|].
  2:{ apply Forall_fmap, Forall_forall. intros [n v] _. simpl.
      rewrite elem_of_app, elem_of_cons. intros [Hin|[Hin|Hin]].
      - apply urlencodedOctets_chars in Hin. lia.
      - lia.
      - apply urlencodedOctets_chars in Hin. lia. }
  induction Htuples as [|[n v] rest [Hn Hv] _ IH]; [done|].
  cbn [fmap list_fmap omap list_omap fst snd] in *.
  change (js "=" ++ ?x) with (61 :: x). rewrite splitFirst_app.
  2:{ intros Hin. apply urlencodedOctets_chars in Hin. lia. }
  assert (urlencodedOctets n ++ 61 :: urlencodedOctets v ≠ []) as Hne
    by by destruct (urlencodedOctets n).
  destruct (urlencodedOctets n ++ 61 :: urlencodedOctets v) eqn:Heq; [done|].
  unfold default. cbn [from_option id].
  rewrite !urlencodedDecode_urlencodedOctets by done. f_equal. exact IH.
Qed.

Lemma hexOctet_octet (h l o : N) : hexOctet h l = Some o → o < 256.
Proof.
  unfold hexOctet.
  assert (∀ c v, hexValue c = Some v → v < 16) as Hv.
  { intros c v. unfold hexValue. repeat case_match; intros [= <-];
      repeat match goal with
             | H : (_ && _) = true |- _ => apply andb_true_iff in H as [??]
             | H : (_ <=? _) = true |- _ => apply N.leb_le in H
             end; lia. }
  destruct (hexValue h) as [a|] eqn:Ha; [|done].
  destruct (hexValue l) as [b|] eqn:Hb; [|done].
  apply Hv in Ha, Hb. intros [= <-]. lia.
Qed.

Lemma percentDecode_octets (octets : list N) :
  isOctets octets → isOctets (percentDecode octets).
Proof.
  unfold isOctets. revert octets.
  refine (induction_ltof1 _ (@length N) _ _). unfold ltof.
  intros [|b rest] IH Hall; [done|].
  apply Forall_cons in Hall as [Hb Hrest]. cbn [percentDecode].
  assert (Forall (λ b, b < 256) (b :: percentDecode rest)) as Hkeep.
  { apply Forall_cons_2; [done|]. apply IH; [simpl; lia|done]. }
  destruct (b =? 37); [|done].
  destruct rest as [|h [|l rest']]; try done.
  destruct (hexOctet h l) as [o|] eqn:Ho; [|done].
  apply Forall_cons_2; [by eapply hexOctet_octet|].
  apply IH; [simpl; lia|].
  by apply Forall_cons in Hrest as [_ [_ ?]%Forall_cons].
Qed.

Lemma urlencodedDecode_octets (octets : list N) :
  isOctets octets → isOctets (urlencodedDecode octets).
Proof.
  intros Hall. apply percentDecode_octets. unfold plusToSpace.
  apply Forall_fmap. eapply Forall_impl; [done|]. intros b Hb.
  cbv beta in *. unfold compose. destruct (b =? 43); lia.
Qed.

Lemma splitFirst_octets (sep : N) (s : list N) :
  isOctets s →
  isOctets (splitFirst sep s).1 ∧ isOctets (default [] (splitFirst sep s).2).
Proof.
  unfold isOctets. induction 1 as [|c s Hc Hs [IH1 IH2]]; [done|].
  simpl. destruct (c =? sep); [done|].
  destruct (splitFirst sep s) as [before after]. simpl in *.
  split; [by apply Forall_cons_2|done].
Qed.

Lemma urlencodedParse_octets (input : list N) :
  isOctets input → octetPairs (urlencodedParse input).
Proof.
  intros Hinput. unfold urlencodedParse, octetPairs.
  assert (Forall isOctets (split 38 input)) as Hpieces.
  { apply Forall_forall. intros piece Hpiece. apply Forall_forall.
    intros x Hx. eapply Forall_forall in Hinput; [done|].
    by eapply split_subset. }
  induction Hpieces as [|piece pieces Hpiece _ IH]; [done|].
  cbn [omap list_omap]. destruct piece as [|c piece]; [done|].
  destruct (splitFirst_octets 61 (c :: piece) Hpiece) as [H1 H2].
  destruct (splitFirst 61 (c :: piece)) as [name value].
  apply Forall_cons_2; [|done]. simpl in *.
  split; by apply urlencodedDecode_octets.
Qed.

Lemma URLSearchParams_set_octets (tuples : list (list N * list N))
    (name value : list N) :
  octetPairs tuples → isOctets name → isOctets value →
  octetPairs (URLSearchParams_set tuples name value).
Proof.
  intros Htuples Hname Hvalue. unfold octetPairs in *.
  induction Htuples as [|[n v] rest Hp Hrest IH]; simpl.
  - by apply Forall_singleton.
  - case_bool_decide.
    + apply Forall_cons_2; [done|]. apply Forall_forall.
      intros p [_ Hin]%list_elem_of_filter. by eapply Forall_forall in Hrest.
    + by apply Forall_cons_2.
Qed.

Lemma scalarValues_bound (s : jsstring) :
  Forall (λ c, c < 65536) s → Forall (λ cp, cp < 1114112) (scalarValues s).
Proof.
  revert s. refine (induction_ltof1 _ (@length N) _ _). unfold ltof.
  intros [|c rest] IH Hall; [done|].
  apply Forall_cons in Hall as [Hc Hrest]. cbn [scalarValues].
  assert (Forall (λ cp, cp < 1114112) (scalarValues rest)) as Hkeep
    by (apply IH; [simpl; lia|done]).
  destruct (isHighSurrogate c) eqn:Hhigh.
  - destruct rest as [|d rest']; [by apply Forall_singleton|].
    destruct (isLowSurrogate d) eqn:Hlow.
    + apply Forall_cons_2.
      * unfold isHighSurrogate, isLowSurrogate, surrogatePair in *.
        apply andb_true_iff in Hhigh as [?%N.leb_le ?%N.leb_le].
        apply andb_true_iff in Hlow as [?%N.leb_le ?%N.leb_le]. lia.
      * apply IH; [simpl; lia|]. by apply Forall_cons in Hrest as [_ ?].
    + apply Forall_cons_2; [lia|done].
  - destruct (isLowSurrogate c); apply Forall_cons_2; (lia || done).
Qed.

Lemma utf8Encode_octets (s : jsstring) :
  Forall (λ c, c < 65536) s → isOctets (utf8Encode s).
Proof.
  intros Hs. apply scalarValues_bound in Hs. unfold utf8Encode, isOctets.
  induction Hs as [|cp cps Hcp _ IH]; [done|]. cbn [mbind list_bind].
  apply Forall_app. split; [by apply utf8_octets|done].
Qed.

Lemma urlencodedSerialize_chars (tuples : list (list N * list N)) :
  35 ∉ urlencodedSerialize tuples.
Proof.
  assert (Forall (λ c, c ≠ 35) (urlencodedSerialize tuples)) as Hall.
  { apply join_Forall; [compute_done|]. apply Forall_fmap, Forall_forall.
    intros [n v] _. simpl. rewrite Forall_app, Forall_cons.
    split_and!; [|lia|]; apply Forall_forall; intros c Hc;
      apply urlencodedOctets_chars in Hc; lia. }
  intros Hin. by eapply Forall_forall in Hall.
Qed.

Lemma token_octets (s token : jsstring) :
  Forall (λ c, c < 65536) s → encodeURIComponent s = Ok token →
  utf8Encode token = token ∧ isOctets token.
Proof.
  intros Hs Htoken.
  pose proof (encodeURIComponent_tokenChar s Hs token Htoken) as Hchars.
  assert (Forall (λ c, c < 128) token) as Hascii.
  { eapply Forall_impl; [done|]. intros c Hc.
    by apply tokenChar_plain in Hc as (_ & _ & _ & _ & _ & ?). }
  split; [by apply utf8Encode_ascii|].
  eapply Forall_impl; [done|]. intros c Hc. cbv beta in *. lia.
Qed.

(** The key of a variant-sensitive URL parses, and its parameters are
    those of the request with aelia_cache set to the token. *)
Lemma generateCacheKey_searchParams (u : URL)
    (cookies : gmap jsstring jsstring) (q key : jsstring) :
  isSerialised u = true → isShopOrProductPath (pathname u) = true →
  35 ∉ q → Forall (λ c, c < 65536) q → validJar cookies →
  generateCacheKey (withQuery u (Some q)) cookies = Ok key →
  ∃ keyUrl token,
    new_URL key = Ok keyUrl
    ∧ encodeURIComponent (aeliaCookieValues cookies) = Ok token
    ∧ searchParams keyUrl
      = URLSearchParams_set (urlencodedParse (utf8Encode q))
          (js "aelia_cache") token.
Proof.
  intros Hu Hshop Hq Hvalid Hjar. rewrite generateCacheKey_query by done.
  destruct (encodeURIComponent (aeliaCookieValues cookies)) as [token|] eqn:Ht;
    [|done].
  cbn [mbind result_bind]. intros [= <-].
  destruct (token_octets _ token (aeliaCookieValues_valid _ Hjar) Ht)
    as [-> Htoken].
  change (utf8Encode (js "aelia_cache")) with (js "aelia_cache").
  set (params := URLSearchParams_set _ _ _).
  assert (octetPairs params) as Hparams.
  { apply URLSearchParams_set_octets; [|compute_done|done].
    by apply urlencodedParse_octets, utf8Encode_octets. }
  pose proof (urlencodedParse_serialize params Hparams) as Hround.
  pose proof (urlencodedSerialize_chars params) as Hser.
  assert (urlencodedSerialize params ≠ []) as Hne.
  { subst params.
    destruct (urlencodedSerialize_set_shape (urlencodedParse (utf8Encode q))
                (js "aelia_cache")) as (A & B & HA & ->).
    by destruct A. }
  destruct (urlencodedSerialize params) as [|c ser] eqn:Heq; [done|].
  pose proof (new_URL_baseKey (withQuery u (Some (c :: ser)))
                (isSerialised_withQuery u (c :: ser) Hu Hser)) as Hparse.
  eexists _, token. split; [|split; [done|]].
  - rewrite <- Hparse. f_equal. unfold baseKey, protocol, host, pathname, search.
    cbn [withQuery url_scheme url_host url_path url_query].
    by rewrite <- !app_assoc.
  - unfold searchParams.
    cbn [withQuery url_scheme url_host url_path url_query default truthy].
    exact Hround.
Qed.

(** C9.  On a variant-sensitive path, generateCacheKey overwrites any
    aelia_cache parameter of the request with the synthetic token.
    Whatever the query is, the values it gives to aelia_cache play no part:
    two queries that differ only in those values (the name may be written
    with escapes) get the same key, and a query with an aelia_cache
    parameter added at its end gets the key of the query without it.  The
    key parses as a URL whose only aelia_cache parameter is the token, and
    whose other parameters are those of the request, in their order.
    /shop and /shop?aelia_cache=x are different URLs with the same key. *)
Theorem aelia_cache_overwritten :
  (∀ (u : URL) (cookies : gmap jsstring jsstring) (v : jsstring),
     isSerialised u = true → isShopOrProductPath (pathname u) = true →
     Forall (λ c, c < 128) v → 38 ∉ v → 35 ∉ v →
     generateCacheKey (withQuery u (Some (js "aelia_cache=" ++ v))) cookies
     = generateCacheKey (withQuery u None) cookies
     ∧ ∀ token, encodeURIComponent (aeliaCookieValues cookies) = Ok token →
         generateCacheKey (withQuery u None) cookies
         = Ok (url_scheme u ++ js "://" ++ url_host u ++ url_path u
               ++ js "?aelia_cache=" ++ urlencodedString token))
  ∧ (∀ (u : URL) (cookies : gmap jsstring jsstring) (q q' : jsstring),
       isSerialised u = true → isShopOrProductPath (pathname u) = true →
       35 ∉ q → 35 ∉ q' →
       blankValues (js "aelia_cache") (searchParams (withQuery u (Some q)))
       = blankValues (js "aelia_cache") (searchParams (withQuery u (Some q'))) →
       generateCacheKey (withQuery u (Some q)) cookies
       = generateCacheKey (withQuery u (Some q')) cookies)
  ∧ (∀ (u : URL) (cookies : gmap jsstring jsstring) (q q' : jsstring)
       (supplied : list N),
       isSerialised u = true → isShopOrProductPath (pathname u) = true →
       35 ∉ q → 35 ∉ q' →
       searchParams (withQuery u (Some q'))
       = searchParams (withQuery u (Some q)) ++ [(js "aelia_cache", supplied)] →
       generateCacheKey (withQuery u (Some q')) cookies
       = generateCacheKey (withQuery u (Some q)) cookies)
  ∧ (∀ (u : URL) (cookies : gmap jsstring jsstring) (q key : jsstring),
       isSerialised u = true → isShopOrProductPath (pathname u) = true →
       35 ∉ q → Forall (λ c, c < 65536) q → validJar cookies →
       generateCacheKey (withQuery u (Some q)) cookies = Ok key →
       ∃ keyUrl token,
         new_URL key = Ok keyUrl
         ∧ encodeURIComponent (aeliaCookieValues cookies) = Ok token
         ∧ filter (λ p, p.1 = js "aelia_cache") (searchParams keyUrl)
           = [(js "aelia_cache", token)]
         ∧ filter (λ p, p.1 ≠ js "aelia_cache") (searchParams keyUrl)
           = filter (λ p, p.1 ≠ js "aelia_cache")
               (searchParams (withQuery u (Some q))))
  ∧ (∀ (tuples : list (list N * list N)) (token : list N),
       filter (λ p, p.1 = js "aelia_cache")
         (URLSearchParams_set tuples (js "aelia_cache") token)
       = [(js "aelia_cache", token)])
  ∧ new_URL (js "https://host/shop") = Ok shop
  ∧ new_URL (js "https://host/shop?aelia_cache=x") = Ok shopUser
  ∧ toString shop ≠ toString shopUser
  ∧ ∃ key, generateCacheKey shop ∅ = Ok key
           ∧ generateCacheKey shopUser ∅ = Ok key.
Proof.
  split_and!.
  - intros u cookies v Hu Hshop Hascii Hamp Hhash.
    split; [|by intros; apply generateCacheKey_noQuery].
    rewrite generateCacheKey_query_None.
    assert (35 ∉ js "aelia_cache=" ++ v) as Hq
      by (apply not_elem_of_app; split; [compute_done|done]).
    rewrite (generateCacheKey_query u cookies [] Hu Hshop (not_elem_of_nil 35)).
    rewrite (generateCacheKey_query u cookies _ Hu Hshop Hq).
    by rewrite searchParams_aelia_cache.
  - intros u cookies q q' Hu Hshop Hq Hq' Hblank.
    rewrite !generateCacheKey_query by done.
    change (searchParams (withQuery u (Some ?x)))
      with (urlencodedParse (utf8Encode x)) in Hblank.
    change (utf8Encode (js "aelia_cache")) with (js "aelia_cache").
    destruct (encodeURIComponent (aeliaCookieValues cookies)) as [token|];
      [|done].
    cbn [mbind result_bind].
    rewrite <- (URLSearchParams_set_blankValues (urlencodedParse (utf8Encode q))),
      <- (URLSearchParams_set_blankValues (urlencodedParse (utf8Encode q'))).
    by rewrite Hblank.
  - intros u cookies q q' supplied Hu Hshop Hq Hq' Hparams.
    rewrite !generateCacheKey_query by done.
    change (searchParams (withQuery u (Some ?x)))
      with (urlencodedParse (utf8Encode x)) in Hparams.
    change (utf8Encode (js "aelia_cache")) with (js "aelia_cache").
    rewrite Hparams.
    destruct (encodeURIComponent (aeliaCookieValues cookies)) as [token|];
      [|done].
    cbn [mbind result_bind]. by rewrite URLSearchParams_set_snoc.
  - intros u cookies q key Hu Hshop Hq Hvalid Hjar Hkey.
    destruct (generateCacheKey_searchParams u cookies q key
                Hu Hshop Hq Hvalid Hjar Hkey)
      as (keyUrl & token & Hparse & Htoken & Hparams).
    exists keyUrl, token. split_and!; try done.
    + rewrite Hparams. apply URLSearchParams_set_filter.
    + rewrite Hparams.
      change (searchParams (withQuery u (Some q)))
        with (urlencodedParse (utf8Encode q)).
      apply URLSearchParams_set_other.
  - intros tuples token. apply URLSearchParams_set_filter.
  - done.
  - done.
  - compute_done.
  - eexists. split; [|vm_compute]; reflexivity.
Qed.

Lemma aelia_cache_overwritten_witness :
  generateCacheKey
    (withQuery spareParts (Some (js "aelia_cache=" ++ js "USD%2Fspoofed")))
    {[ js "aelia_cs_selected_currency" := js "EUR" ]}
  = generateCacheKey (withQuery spareParts None)
      {[ js "aelia_cs_selected_currency" := js "EUR" ]}
  ∧ generateCacheKey
      (withQuery spareParts (Some (js "sort=price&aelia_cache=x")))
      {[ js "aelia_cs_selected_currency" := js "EUR" ]}
    = generateCacheKey
        (withQuery spareParts (Some (js "sort=price&aelia%5Fcache=USD")))
        {[ js "aelia_cs_selected_currency" := js "EUR" ]}
  ∧ generateCacheKey
      (withQuery spareParts (Some (js "sort=price&aelia_cache=x")))
      {[ js "aelia_cs_selected_currency" := js "EUR" ]}
    = generateCacheKey (withQuery spareParts (Some (js "sort=price")))
        {[ js "aelia_cs_selected_currency" := js "EUR" ]}.
Proof.
  destruct aelia_cache_overwritten as (Hone & Hblank & Hsnoc & _).
  split_and!.
  - by destruct (Hone spareParts
                   {[ js "aelia_cs_selected_currency" := js "EUR" ]}
                   (js "USD%2Fspoofed") eq_refl eq_refl
                   ltac:(compute_done) ltac:(compute_done) ltac:(compute_done)).
  - apply (Hblank spareParts
             {[ js "aelia_cs_selected_currency" := js "EUR" ]}
             (js "sort=price&aelia_cache=x")
             (js "sort=price&aelia%5Fcache=USD") eq_refl eq_refl
             ltac:(compute_done) ltac:(compute_done) eq_refl).
  - apply (Hsnoc spareParts
             {[ js "aelia_cs_selected_currency" := js "EUR" ]}
             (js "sort=price") (js "sort=price&aelia_cache=x") (js "x")
             eq_refl eq_refl ltac:(compute_done) ltac:(compute_done) eq_refl).
Defined.
